(** * dumbcas: the archive pipeline and the mock nodes table

    A shallow embedding of [archive.go] (the three pipeline stages, the
    driver loop, [updateFile], [cleanupList]) and of the mock nodes table's
    [AddEntry], together with the properties the specification states about
    them.

    Conventions.
    - Go's [int64] is [Z]; the atomic counters wrap around on [Add].
    - Go's [error] is [option error] ([None] is [nil]).
    - A channel is the list of values sent on it; a [select] that also
      waits on [InterruptedChannel] takes its choice from a schedule.
    - Logging ([s.log.Printf]) changes nothing the properties look at and
      is left out. *)

From Stdlib Require Import ZArith Lia List String Ascii Bool.
From Stdlib Require Import Decimal DecimalFacts DecimalNat DecimalString.
From stdpp Require Import base option gmap strings list.

Local Open Scope string_scope.
Local Open Scope Z_scope.

(** ** Go values *)

(** [error]: the only distinction the code makes is [os.IsExist]. *)
Inductive error : Type :=
| ErrExist
| ErrOther (msg : string).

(** [err.Error()]. *)
Definition error_message (err : error) : string :=
  match err with
  | ErrExist => "file already exists"
  | ErrOther msg => msg
  end.

(** [os.IsExist(err)]; false on [nil]. *)
Definition os_IsExist (err : option error) : bool :=
  match err with
  | Some ErrExist => true
  | _ => false
  end.

(** [os.FileInfo], as far as the pipeline reads it. *)
Record FileInfo : Type := mkFileInfo {
  fi_Size : Z;
  fi_ModTime : Z;   (* ModTime().Unix() *)
  fi_IsDir : bool
}.

(** ** Statistics: [syncInt] and [Stats] *)

Definition wrap64 (z : Z) : Z := (z + 2 ^ 63) mod 2 ^ 64 - 2 ^ 63.

(** [func (s *syncInt) Add(i int64)]: [atomic.AddInt64]. *)
Definition syncInt_Add (s i : Z) : Z := wrap64 (s + i).

Record Stats : Type := mkStats {
  errors : Z;
  found : Z;
  totalSize : Z;
  nbHashed : Z;
  bytesHashed : Z;
  nbNotHashed : Z;
  bytesNotHashed : Z;
  nbArchived : Z;
  bytesArchived : Z;
  nbNotArchived : Z;
  bytesNotArchived : Z
}.

Definition Stats_zero : Stats := mkStats 0 0 0 0 0 0 0 0 0 0 0.

Definition add_errors (i : Z) (s : Stats) : Stats :=
  mkStats (syncInt_Add (errors s) i) (found s) (totalSize s) (nbHashed s)
    (bytesHashed s) (nbNotHashed s) (bytesNotHashed s) (nbArchived s)
    (bytesArchived s) (nbNotArchived s) (bytesNotArchived s).

Definition add_found (i : Z) (s : Stats) : Stats :=
  mkStats (errors s) (syncInt_Add (found s) i) (totalSize s) (nbHashed s)
    (bytesHashed s) (nbNotHashed s) (bytesNotHashed s) (nbArchived s)
    (bytesArchived s) (nbNotArchived s) (bytesNotArchived s).

Definition add_totalSize (i : Z) (s : Stats) : Stats :=
  mkStats (errors s) (found s) (syncInt_Add (totalSize s) i) (nbHashed s)
    (bytesHashed s) (nbNotHashed s) (bytesNotHashed s) (nbArchived s)
    (bytesArchived s) (nbNotArchived s) (bytesNotArchived s).

Definition add_nbHashed (i : Z) (s : Stats) : Stats :=
  mkStats (errors s) (found s) (totalSize s) (syncInt_Add (nbHashed s) i)
    (bytesHashed s) (nbNotHashed s) (bytesNotHashed s) (nbArchived s)
    (bytesArchived s) (nbNotArchived s) (bytesNotArchived s).

Definition add_bytesHashed (i : Z) (s : Stats) : Stats :=
  mkStats (errors s) (found s) (totalSize s) (nbHashed s)
    (syncInt_Add (bytesHashed s) i) (nbNotHashed s) (bytesNotHashed s)
    (nbArchived s) (bytesArchived s) (nbNotArchived s) (bytesNotArchived s).

Definition add_nbNotHashed (i : Z) (s : Stats) : Stats :=
  mkStats (errors s) (found s) (totalSize s) (nbHashed s) (bytesHashed s)
    (syncInt_Add (nbNotHashed s) i) (bytesNotHashed s) (nbArchived s)
    (bytesArchived s) (nbNotArchived s) (bytesNotArchived s).

Definition add_bytesNotHashed (i : Z) (s : Stats) : Stats :=
  mkStats (errors s) (found s) (totalSize s) (nbHashed s) (bytesHashed s)
    (nbNotHashed s) (syncInt_Add (bytesNotHashed s) i) (nbArchived s)
    (bytesArchived s) (nbNotArchived s) (bytesNotArchived s).

Definition add_nbArchived (i : Z) (s : Stats) : Stats :=
  mkStats (errors s) (found s) (totalSize s) (nbHashed s) (bytesHashed s)
    (nbNotHashed s) (bytesNotHashed s) (syncInt_Add (nbArchived s) i)
    (bytesArchived s) (nbNotArchived s) (bytesNotArchived s).

Definition add_bytesArchived (i : Z) (s : Stats) : Stats :=
  mkStats (errors s) (found s) (totalSize s) (nbHashed s) (bytesHashed s)
    (nbNotHashed s) (bytesNotHashed s) (nbArchived s)
    (syncInt_Add (bytesArchived s) i) (nbNotArchived s) (bytesNotArchived s).

Definition add_nbNotArchived (i : Z) (s : Stats) : Stats :=
  mkStats (errors s) (found s) (totalSize s) (nbHashed s) (bytesHashed s)
    (nbNotHashed s) (bytesNotHashed s) (nbArchived s) (bytesArchived s)
    (syncInt_Add (nbNotArchived s) i) (bytesNotArchived s).

Definition add_bytesNotArchived (i : Z) (s : Stats) : Stats :=
  mkStats (errors s) (found s) (totalSize s) (nbHashed s) (bytesHashed s)
    (nbNotHashed s) (bytesNotHashed s) (nbArchived s) (bytesArchived s)
    (nbNotArchived s) (syncInt_Add (bytesNotArchived s) i).

(** ** The Go library functions the code calls

    [strings.Replace], [strings.Split], [path.IsAbs], [path.Clean],
    [path.Join], [path.Base], [path.Dir], over byte strings. *)

Module Go.

Fixpoint skip (n : nat) (s : string) : string :=
  match n, s with
  | O, _ => s
  | S _, EmptyString => EmptyString
  | S n', String _ s' => skip n' s'
  end.

(** [s[i:]]: a slice expression panics ([None]) when [i > len(s)]. *)
Definition slice_from (s : string) (i : nat) : option string :=
  if (i <=? String.length s)%nat then Some (skip i s) else None.

(** Replacing with a non-empty [old], at most [n] times when [0 <= n]. *)
Fixpoint replace_from (fuel : nat) (s old new : string) (n : Z) : string :=
  match fuel with
  | O => s
  | S fuel' =>
      if n =? 0 then s
      else
        match s with
        | EmptyString => EmptyString
        | String c s' =>
            if String.prefix old s
            then new +:+ replace_from fuel' (skip (String.length old) s)
                           old new (n - 1)
            else String c (replace_from fuel' s' old new n)
        end
  end.

(** An empty [old] matches before every byte and at the end. *)
Fixpoint replace_empty (s new : string) (n : Z) : string :=
  if n =? 0 then s
  else
    match s with
    | EmptyString => new
    | String c s' => new +:+ String c (replace_empty s' new (n - 1))
    end.

(** [strings.Replace(s, old, new, n)]: the first [n] non-overlapping
    instances of [old] are replaced by [new]; no limit when [n < 0];
    [s] itself when [n == 0] or [old == new]. *)
Definition strings_Replace (s old new : string) (n : Z) : string :=
  if String.eqb old new || (n =? 0) then s
  else if String.eqb old "" then replace_empty s new n
  else replace_from (S (String.length s)) s old new n.

(** The piece before the first separator and the pieces after it. *)
Fixpoint split_from (fuel : nat) (s sep : string) : string * list string :=
  match fuel with
  | O => (s, [])
  | S fuel' =>
      match s with
      | EmptyString => (EmptyString, [])
      | String c s' =>
          if String.prefix sep s
          then let '(h, t) := split_from fuel' (skip (String.length sep) s) sep
               in (EmptyString, h :: t)
          else let '(h, t) := split_from fuel' s' sep in (String c h, t)
      end
  end.

Fixpoint explode (s : string) : list string :=
  match s with
  | EmptyString => []
  | String c s' => String c EmptyString :: explode s'
  end.

(** [strings.Split(s, sep)]. *)
Definition strings_Split (s sep : string) : list string :=
  if String.eqb sep "" then explode s
  else let '(h, t) := split_from (S (String.length s)) s sep in h :: t.

Definition is_slash (c : ascii) : bool := Ascii.eqb c "/".
Definition is_dot (c : ascii) : bool := Ascii.eqb c ".".

(** [path.IsAbs]. *)
Definition path_IsAbs (p : string) : bool :=
  match p with
  | String c _ => is_slash c
  | EmptyString => false
  end.

(** The end of the input or a slash comes next. *)
Definition at_boundary (s : string) : bool :=
  match s with
  | EmptyString => true
  | String c _ => is_slash c
  end.

(** The output buffer of [path.Clean] is kept reversed: its head is the
    byte written last. [backtrack] is the [..] case that drops the last
    element: [out.w--] and then on while [out.w > dotdot] and the byte
    at [out.w] is not a slash. *)
Fixpoint backtrack (out : list ascii) (dotdot : nat) : list ascii :=
  match out with
  | [] => []
  | c :: out' =>
      if (dotdot <? List.length out')%nat && negb (is_slash c)
      then backtrack out' dotdot
      else out'
  end.

(** Copies one path element: the bytes up to the next slash. *)
Fixpoint copy_element (s : string) (out : list ascii) : string * list ascii :=
  match s with
  | EmptyString => (EmptyString, out)
  | String c s' =>
      if is_slash c then (s, out) else copy_element s' (c :: out)
  end.

Fixpoint clean_loop (fuel : nat) (rooted : bool) (rest : string)
    (out : list ascii) (dotdot : nat) : list ascii :=
  match fuel with
  | O => out
  | S fuel' =>
      match rest with
      | EmptyString => out
      | String c r1 =>
          if is_slash c then
            clean_loop fuel' rooted r1 out dotdot
          else if is_dot c && at_boundary r1 then
            clean_loop fuel' rooted r1 out dotdot
          else if is_dot c &&
                  match r1 with
                  | String c1 r2 => is_dot c1 && at_boundary r2
                  | EmptyString => false
                  end then
            let r2 := skip 1 r1 in
            if (dotdot <? List.length out)%nat then
              clean_loop fuel' rooted r2 (backtrack out dotdot) dotdot
            else if negb rooted then
              let out1 := if (0 <? List.length out)%nat
                          then "/"%char :: out else out in
              let out2 := "."%char :: "."%char :: out1 in
              clean_loop fuel' rooted r2 out2 (List.length out2)
            else
              clean_loop fuel' rooted r2 out dotdot
          else
            let out1 :=
              if (rooted && negb (List.length out =? 1)%nat) ||
                 (negb rooted && negb (List.length out =? 0)%nat)
              then "/"%char :: out else out in
            let '(rest', out2) := copy_element rest out1 in
            clean_loop fuel' rooted rest' out2 dotdot
      end
  end.

(** [path.Clean]. *)
Definition path_Clean (p : string) : string :=
  match p with
  | EmptyString => "."
  | String c _ =>
      let rooted := is_slash c in
      let out0 := if rooted then ["/"%char] else [] in
      let r0 := if rooted then skip 1 p else p in
      let dotdot := if rooted then 1%nat else 0%nat in
      let out := clean_loop (S (String.length p)) rooted r0 out0 dotdot in
      match out with
      | [] => "."
      | _ => string_of_list_ascii (List.rev out)
      end
  end.

(** [path.Join] of two elements: the elements from the first non-empty
    one on are joined with slashes and cleaned; empty when all are. *)
Definition path_Join (a b : string) : string :=
  if negb (String.eqb a "") then path_Clean (a +:+ "/" +:+ b)
  else if negb (String.eqb b "") then path_Clean b
  else "".

Fixpoint drop_slashes (l : list ascii) : list ascii :=
  match l with
  | c :: l' => if is_slash c then drop_slashes l' else l
  | [] => []
  end.

Fixpoint until_slash (l : list ascii) : list ascii :=
  match l with
  | c :: l' => if is_slash c then [] else c :: until_slash l'
  | [] => []
  end.

Fixpoint from_slash (l : list ascii) : list ascii :=
  match l with
  | c :: l' => if is_slash c then l else from_slash l'
  | [] => []
  end.

(** [path.Base]: the last element, trailing slashes removed first. *)
Definition path_Base (p : string) : string :=
  match p with
  | EmptyString => "."
  | _ =>
      let stripped := drop_slashes (List.rev (list_ascii_of_string p)) in
      match List.rev (until_slash stripped) with
      | [] => "/"
      | l => string_of_list_ascii l
      end
  end.

(** [path.Dir]: all but the last element, cleaned. *)
Definition path_Dir (p : string) : string :=
  path_Clean
    (string_of_list_ascii
       (List.rev (from_slash (List.rev (list_ascii_of_string p))))).

(** White space in one byte: tab, line feed, vertical tab, form feed,
    carriage return and space. *)
Definition is_space (c : ascii) : bool :=
  let n := nat_of_ascii c in
  ((9 <=? n)%nat && (n <=? 13)%nat) || (n =? 32)%nat.

(** White space in two bytes of UTF-8: U+0085 and U+00A0. *)
Definition is_space2 (a b : ascii) : bool :=
  (nat_of_ascii a =? 194)%nat &&
  ((nat_of_ascii b =? 133)%nat || (nat_of_ascii b =? 160)%nat).

(** White space in three bytes of UTF-8: U+1680, U+2000 to U+200A,
    U+2028, U+2029, U+202F, U+205F and U+3000. *)
Definition is_space3 (a b c : ascii) : bool :=
  let x := nat_of_ascii a in
  let y := nat_of_ascii b in
  let z := nat_of_ascii c in
  ((x =? 225)%nat && (y =? 154)%nat && (z =? 128)%nat) ||
  ((x =? 226)%nat && (y =? 128)%nat &&
   (((128 <=? z)%nat && (z <=? 138)%nat) ||
    (z =? 168)%nat || (z =? 169)%nat || (z =? 175)%nat)) ||
  ((x =? 226)%nat && (y =? 129)%nat && (z =? 159)%nat) ||
  ((x =? 227)%nat && (y =? 128)%nat && (z =? 128)%nat).

(** Drops the white space a list of bytes starts with, rune by rune;
    [s2] and [s3] tell the runes of two and three bytes that are white
    space. A byte that starts no white space ends it, be it the start of
    another rune or no valid UTF-8 at all. *)
Fixpoint strip (s2 : ascii -> ascii -> bool)
    (s3 : ascii -> ascii -> ascii -> bool) (l : list ascii) : list ascii :=
  match l with
  | [] => []
  | a :: l1 =>
      if is_space a then strip s2 s3 l1
      else
        match l1 with
        | [] => l
        | b :: l2 =>
            if s2 a b then strip s2 s3 l2
            else
              match l2 with
              | [] => l
              | c :: l3 => if s3 a b c then strip s2 s3 l3 else l
              end
        end
  end.

(** [strings.TrimLeftFunc(s, unicode.IsSpace)], on the bytes. *)
Definition trim_left (l : list ascii) : list ascii :=
  strip is_space2 is_space3 l.

(** [strings.TrimRightFunc(s, unicode.IsSpace)], on the bytes last
    first: the last rune is white space when the last one, two or three
    bytes are its encoding. *)
Definition trim_right_reversed (l : list ascii) : list ascii :=
  strip (fun a b => is_space2 b a) (fun a b c => is_space3 c b a) l.

(** [strings.TrimSpace]: Unicode white space is taken off both ends. *)
Definition strings_TrimSpace (s : string) : string :=
  string_of_list_ascii
    (List.rev
       (trim_right_reversed (List.rev (trim_left (list_ascii_of_string s))))).

(** [%d] of an [int64] and of an [int]. *)
Definition fmt_d (z : Z) : string := NilEmpty.string_of_int (Z.to_int z).
Definition fmt_nat (n : nat) : string :=
  NilEmpty.string_of_uint (Nat.to_uint n).

End Go.
Import Go.

(** ** The entry manifest *)

(** [Entry]: [Files] is a Go map; a nil map and an empty one are both
    the empty map here. *)
#[warnings="-register-all"]
Inductive Entry : Type := mkEntry {
  e_Sha1 : string;
  e_Size : Z;
  e_Files : gmap string Entry
}.

Definition Entry_zero : Entry := mkEntry "" 0 ∅.

(** ** The outside world *)

(** One value received from the channel [EnumerateTree] returns. *)
Record TreeItem : Type := mkTreeItem {
  ti_FullPath : string;
  ti_FileInfo : option FileInfo;   (* a nil interface is None *)
  ti_Error : option error
}.

(** What the pipeline asks of the platform, the file system and the
    libraries it calls. [EnumerateTree], a helper of the repository whose
    source is not in [archive.go], is taken as it answers: the sequence of
    items its channel delivers before it is closed. *)
Record World : Type := mkWorld {
  w_Separator : ascii;                      (* filepath.Separator *)
  w_ExpandEnv : string -> string;           (* os.ExpandEnv *)
  w_sha1 : string -> string;                (* crypto/sha1, in hex *)
  w_contents : string -> string + error;    (* reading a whole file *)
  w_Read : string -> string * option error; (* a reader on the file: the
                                               bytes it delivers, then the
                                               end of the file or an error *)
  w_Stat : string -> FileInfo + error;      (* os.Stat *)
  w_EnumerateTree : string -> list TreeItem;
  w_Open : string -> option error;          (* os.Open: nil or an error *)
  w_Marshal : Entry -> string + error;      (* json.Marshal *)
  w_clock : nat -> Z                        (* time.Now().Unix(), k-th call *)
}.

(** The paths whose contents were read, oldest first. *)
Definition ReadLog : Type := list string.

(** Modelled from the spec: [sha1FilePath], a helper of the repository
    whose source is not in [archive.go]; "digest = sha1(contents(path))",
    or the error of reading the file. Each call is logged. *)
Definition sha1FilePath (w : World) (p : string) (log : ReadLog)
  : (string + error) * ReadLog :=
  (match w_contents w p with
   | inl bytes => inl (w_sha1 w bytes)
   | inr err => inr err
   end, (log ++ [p])%list).

(** [CasTable], the interface: [AddEntry(reader, digest)] on a table
    gives the table afterwards and [nil], already-exists or an error.
    The reader is the file's contents, or the error reading it meets. *)
Class CasTable (T : Type) : Type := {
  cas_AddEntry : T -> string + error -> string -> T * option error
}.

(** Modelled from the spec: [AddBytes], a helper of the repository whose
    source is not in [archive.go], "computes the digest and calls
    addEntry". *)
Definition AddBytes {T : Type} {CT : CasTable T} (w : World) (cas : T)
    (data : string) : T * string * option error :=
  let digest := w_sha1 w data in
  let '(cas', err) := cas_AddEntry cas (inl data) digest in
  (cas', digest, err).

(** How a stage's goroutine ended. *)
Inductive Exit : Type :=
| Done                      (* ran to its last statement *)
| Interrupted               (* took the InterruptedChannel case *)
| Panicked (msg : string).

(** One turn of a stage's loop: go round again, or leave. *)
Inductive Control (A : Type) : Type :=
| Next (a : A)
| Leave (e : Exit) (a : A).
Arguments Next {A} a.
Arguments Leave {A} e a.

(** The state a turn ends in, either way. *)
Definition after {A : Type} (c : Control A) : A :=
  match c with
  | Next a => a
  | Leave _ a => a
  end.

(** A [select] over [InterruptedChannel] and a data channel: [true] when
    the interrupted case is taken. The schedule lists the choices of a
    stage in order; once it is used up nothing interrupts. *)
Definition take_choice (sched : list bool) : bool * list bool :=
  match sched with
  | [] => (false, [])
  | b :: sched' => (b, sched')
  end.

(** ** [updateFile] *)

Record EntryCache : Type := mkEntryCache {
  Sha1 : string;
  Size : Z;
  Timestamp : Z;
  LastTested : Z
}.

Definition EntryCache_zero : EntryCache := mkEntryCache "" 0 0 0.

Record inputItem : Type := mkInputItem {
  fullPath : string;
  relPath : string;
  info : FileInfo
}.

(** What stage B expects of every item it receives. *)
Definition not_a_directory (item : inputItem) : Prop :=
  fi_IsDir (info item) = false.

(** [func updateFile(cache *EntryCache, item inputItem) (bool, error)].
    [now] is [time.Now().Unix()]; the record after the call is returned
    with the two results and the read log. *)
Definition updateFile (w : World) (now : Z) (cache : EntryCache)
    (item : inputItem) (log : ReadLog)
  : EntryCache * bool * option error * ReadLog :=
  let size := fi_Size (info item) in
  let timestamp := fi_ModTime (info item) in
  if (Size cache =? size) && (Timestamp cache =? timestamp) then
    (mkEntryCache (Sha1 cache) (Size cache) (Timestamp cache) now,
     false, None, log)
  else
    match sha1FilePath w (fullPath item) log with
    | (inr err, log') => (cache, false, Some err, log')
    | (inl digest, log') =>
        (mkEntryCache digest size timestamp now, true, None, log')
    end.

(** ** Stage A: [enumerateInputs] *)

Record EnumState : Type := mkEnumState {
  en_stats : Stats;
  en_out : list inputItem;     (* sent on c so far *)
  en_sched : list bool
}.

(** The body of [for _, input := range inputs]. *)
Definition enumerate_input (w : World) (input : string) (st : EnumState)
  : Control EnumState :=
  let s := en_stats st in
  match w_Stat w input with
  | inr _ =>
      Next (mkEnumState (add_errors 1 s) (en_out st) (en_sched st))
  | inl stat =>
      if fi_IsDir stat then
        let d := w_EnumerateTree w input in
        let '(interrupted, sched') := take_choice (en_sched st) in
        if interrupted then
          Leave Interrupted (mkEnumState (add_errors 1 s) (en_out st) sched')
        else
          match d with
          | [] => Next (mkEnumState s (en_out st) sched')
          | item :: _ =>
              match ti_Error item with
              | Some _ =>
                  Next (mkEnumState (add_errors 1 s) (en_out st) sched')
              | None =>
                  match ti_FileInfo item with
                  | None =>
                      Leave (Panicked "nil pointer dereference")
                        (mkEnumState s (en_out st) sched')
                  | Some fi =>
                      if negb (fi_IsDir fi) then
                        let s1 := add_found 1 s in
                        match slice_from (ti_FullPath item)
                                (String.length input + 1) with
                        | None =>
                            Leave (Panicked "slice bounds out of range")
                              (mkEnumState s1 (en_out st) sched')
                        | Some rel =>
                            Next (mkEnumState s1
                                    (en_out st ++
                                     [mkInputItem (ti_FullPath item) rel fi])
                                    sched')
                        end
                      else Next (mkEnumState s (en_out st) sched')
                  end
              end
          end
      else
        let s1 := add_totalSize (fi_Size stat) (add_found 1 s) in
        Next (mkEnumState s1
                (en_out st ++ [mkInputItem input (path_Base input) stat])
                (en_sched st))
  end.

Fixpoint enumerate_loop (w : World) (inputs : list string) (st : EnumState)
  : Exit * EnumState :=
  match inputs with
  | [] => (Done, st)
  | input :: rest =>
      match enumerate_input w input st with
      | Next st' => enumerate_loop w rest st'
      | Leave e st' => (e, st')
      end
  end.

(** [func (s *Stats) enumerateInputs(inputs []string) <-chan inputItem]:
    the goroutine run to its end. *)
Definition enumerateInputs (w : World) (sched : list bool) (s : Stats)
    (inputs : list string) : Exit * EnumState :=
  enumerate_loop w inputs (mkEnumState s [] sched).

(** The sizes of the inputs that are themselves files, in order. *)
Fixpoint file_input_sizes (w : World) (inputs : list string) : list Z :=
  match inputs with
  | [] => []
  | input :: rest =>
      match w_Stat w input with
      | inl stat =>
          if fi_IsDir stat then file_input_sizes w rest
          else fi_Size stat :: file_input_sizes w rest
      | inr _ => file_input_sizes w rest
      end
  end.

(** What [enumerateInputs] relies on from [EnumerateTree]: an item
    without an error carries its file information, and a file found in
    the tree of [input] has a path longer than [input]. *)
Definition TreeContract (w : World) (inputs : list string) : Prop :=
  forall input item rest,
    In input inputs ->
    w_EnumerateTree w input = item :: rest ->
    ti_Error item = None ->
    exists fi,
      ti_FileInfo item = Some fi /\
      (fi_IsDir fi = false ->
       (String.length input + 1 <= String.length (ti_FullPath item))%nat).

(** ** Stage B: [hashInputs] *)

Record itemToArchive : Type := mkItemToArchive {
  a_fullPath : string;
  a_relPath : string;
  a_sha1 : string;
  a_size : Z
}.

(** Modelled from the spec: [FindInCache], a helper of the repository
    whose source is not in [archive.go], "returns the existing record for
    path or a zero-valued record inserted now"; the caller changes the
    record in place, so it is written back under the same path. *)
Definition FindInCache (cache : gmap string EntryCache) (p : string)
  : EntryCache :=
  default EntryCache_zero (cache !! p).

Record HashState : Type := mkHashState {
  hs_stats : Stats;
  hs_out : list itemToArchive;          (* sent on c so far *)
  hs_sched : list bool;
  hs_cache : gmap string EntryCache;
  hs_log : ReadLog;
  hs_calls : nat                        (* calls of updateFile so far *)
}.

Definition hash_panic_message : string :=
  "This can't happen; enumerateInputs() should eat all the directories.".

(** The [case item, ok := <-inputs] arm with [ok] true. *)
Definition hash_item (w : World) (item : inputItem) (st : HashState)
  : Control HashState :=
  let s := hs_stats st in
  let '(interrupted, sched') := take_choice (hs_sched st) in
  if interrupted then
    Leave Interrupted
      (mkHashState (add_errors 1 s) (hs_out st) sched' (hs_cache st)
         (hs_log st) (hs_calls st))
  else if fi_IsDir (info item) then
    Leave (Panicked hash_panic_message)
      (mkHashState s (hs_out st) sched' (hs_cache st) (hs_log st)
         (hs_calls st))
  else
    let size := fi_Size (info item) in
    let cachedItem := FindInCache (hs_cache st) (fullPath item) in
    match updateFile w (w_clock w (hs_calls st)) cachedItem item (hs_log st)
    with
    | (rec, _, Some _, log') =>
        Next (mkHashState (add_errors 1 s) (hs_out st) sched'
                (<[fullPath item := rec]> (hs_cache st)) log'
                (S (hs_calls st)))
    | (rec, wasHashed, None, log') =>
        let s1 :=
          if wasHashed then add_bytesHashed size (add_nbHashed 1 s)
          else add_bytesNotHashed size (add_nbNotHashed 1 s) in
        Next (mkHashState s1
                (hs_out st ++
                 [mkItemToArchive (fullPath item) (relPath item) (Sha1 rec)
                    size])
                sched' (<[fullPath item := rec]> (hs_cache st)) log'
                (S (hs_calls st)))
    end.

Fixpoint hash_loop (w : World) (inputs : list inputItem) (st : HashState)
  : Exit * HashState :=
  match inputs with
  | [] =>
      (* the channel is closed: the select runs once more *)
      let '(interrupted, sched') := take_choice (hs_sched st) in
      if interrupted then
        (Interrupted,
         mkHashState (add_errors 1 (hs_stats st)) (hs_out st) sched'
           (hs_cache st) (hs_log st) (hs_calls st))
      else
        (Done,
         mkHashState (hs_stats st) (hs_out st) sched' (hs_cache st)
           (hs_log st) (hs_calls st))
  | item :: rest =>
      match hash_item w item st with
      | Next st' => hash_loop w rest st'
      | Leave e st' => (e, st')
      end
  end.

(** [func (s *Stats) hashInputs(a, inputs) <-chan itemToArchive]: the
    goroutine run over everything [inputs] delivers. [cache] is what
    [a.LoadCache()] returned. *)
Definition hashInputs (w : World) (sched : list bool)
    (cache : gmap string EntryCache) (s : Stats) (inputs : list inputItem)
  : Exit * HashState :=
  hash_loop w inputs (mkHashState s [] sched cache [] 0).

(** ** Stage C: [archiveItem], [makeEntry], [archiveInputs] *)

Section Archive.
Context {T : Type} {CT : CasTable T}.

(** [func (s *Stats) archiveItem(item itemToArchive, cas CasTable)]. *)
Definition archiveItem (w : World) (s : Stats) (item : itemToArchive)
    (cas : T) : Stats * T :=
  match w_Open w (a_fullPath item) with
  | Some _ => (add_errors 1 s, cas)
  | None =>
      let '(cas', err) :=
        cas_AddEntry cas (w_contents w (a_fullPath item)) (a_sha1 item) in
      if os_IsExist err then
        (add_bytesNotArchived (a_size item) (add_nbNotArchived 1 s), cas')
      else
        match err with
        | None =>
            (add_bytesArchived (a_size item) (add_nbArchived 1 s), cas')
        | Some _ => (add_errors 1 s, cas')
        end
  end.

(** The walk of [makeEntry] along the elements of [item.relPath]. *)
Fixpoint makeEntry_walk (root : Entry) (elems : list string)
    (item : itemToArchive) : Entry :=
  match elems with
  | [] => mkEntry (a_sha1 item) (a_size item) (e_Files root)
  | p :: elems' =>
      let child := default Entry_zero (e_Files root !! p) in
      mkEntry (e_Sha1 root) (e_Size root)
        (<[p := makeEntry_walk child elems' item]> (e_Files root))
  end.

(** [func makeEntry(root *Entry, item itemToArchive)]. *)
Definition makeEntry (w : World) (root : Entry) (item : itemToArchive)
  : Entry :=
  makeEntry_walk root
    (strings_Split (a_relPath item) (String (w_Separator w) EmptyString))
    item.

Record ArchiveState : Type := mkArchiveState {
  ar_stats : Stats;
  ar_out : list string;        (* sent on c so far *)
  ar_sched : list bool;
  ar_cas : T;
  ar_root : Entry
}.

(** The [case item, ok := <-items] arm with [ok] true. *)
Definition archive_item (w : World) (item : itemToArchive)
    (st : ArchiveState) : Control ArchiveState :=
  let '(interrupted, sched') := take_choice (ar_sched st) in
  if interrupted then
    Leave Interrupted
      (mkArchiveState (add_errors 1 (ar_stats st)) (ar_out st) sched'
         (ar_cas st) (ar_root st))
  else
    let root' := makeEntry w (ar_root st) item in
    let '(s', cas') := archiveItem w (ar_stats st) item (ar_cas st) in
    Next (mkArchiveState s' (ar_out st) sched' cas' root').

(** What follows the loop: the root manifest is serialized and stored,
    and its digest, or the empty string, is sent. *)
Definition archive_finish (w : World) (st : ArchiveState) : ArchiveState :=
  let s := ar_stats st in
  match w_Marshal w (ar_root st) with
  | inr _ =>
      mkArchiveState (add_errors 1 s) (ar_out st ++ [""]) (ar_sched st)
        (ar_cas st) (ar_root st)
  | inl data =>
      let '(cas', entrySha1, err) := AddBytes w (ar_cas st) data in
      let len := Z.of_nat (String.length data) in
      if os_IsExist err then
        mkArchiveState
          (add_bytesNotArchived len (add_nbNotArchived 1 s))
          (ar_out st ++ [entrySha1]) (ar_sched st) cas' (ar_root st)
      else
        match err with
        | None =>
            mkArchiveState (add_bytesArchived len (add_nbArchived 1 s))
              (ar_out st ++ [entrySha1]) (ar_sched st) cas' (ar_root st)
        | Some _ =>
            mkArchiveState (add_errors 1 s) (ar_out st ++ [""])
              (ar_sched st) cas' (ar_root st)
        end
  end.

(** The [for cont { select { ... } }] loop; nothing is sent in it. *)
Fixpoint archive_loop (w : World) (items : list itemToArchive)
    (st : ArchiveState) : Exit * ArchiveState :=
  match items with
  | [] =>
      (* the channel is closed: the select runs once more *)
      let '(interrupted, sched') := take_choice (ar_sched st) in
      if interrupted then
        (Interrupted,
         mkArchiveState (add_errors 1 (ar_stats st)) (ar_out st) sched'
           (ar_cas st) (ar_root st))
      else
        (Done,
         mkArchiveState (ar_stats st) (ar_out st) sched' (ar_cas st)
           (ar_root st))
  | item :: rest =>
      match archive_item w item st with
      | Next st' => archive_loop w rest st'
      | Leave e st' => (e, st')
      end
  end.

(** [func (s *Stats) archiveInputs(a, cas, items) <-chan string]: the
    goroutine run over everything [items] delivers. *)
Definition archiveInputs (w : World) (sched : list bool) (cas : T)
    (s : Stats) (items : list itemToArchive) : Exit * ArchiveState :=
  match archive_loop w items (mkArchiveState s [] sched cas Entry_zero) with
  | (Done, st) => (Done, archive_finish w st)
  | (e, st) => (e, st)
  end.

End Archive.

(** ** [cleanupList] *)

(** [func cleanupList(relDir string, inputs []string)]: the slice is
    rewritten in place, element by element. *)
Definition cleanupList (w : World) (relDir : string) (inputs : list string)
  : list string :=
  List.map
    (fun item =>
       let item := w_ExpandEnv w item in
       let item :=
         strings_Replace item "/" (String (w_Separator w) EmptyString) 0 in
       let item :=
         if negb (path_IsAbs item) then path_Join relDir item else item in
       path_Clean item)
    inputs.

(** The root manifest cannot be serialized, or storing it fails with an
    error other than already-exists. *)
Definition manifest_fails {T : Type} {CT : CasTable T} (w : World)
    (st : ArchiveState) : Prop :=
  match w_Marshal w (ar_root st) with
  | inr _ => True
  | inl data =>
      let '(_, _, err) := AddBytes w (ar_cas st) data in
      err <> None /\ os_IsExist err = false
  end.

(** ** The nodes table *)

Record Node : Type := mkNode {
  n_Entry : string;
  n_Comment : string
}.

(** [NodesTable], the interface: [AddEntry(node, name)] on a table gives
    the table afterwards and an error or [nil]. *)
Class NodesTable (N : Type) : Type := {
  nodes_AddEntry : N -> Node -> string -> N * option error
}.

(** ** The driver: [readFileAsStrings] and [archiveRun.main] *)

Definition newline : string := String (ascii_of_nat 10) EmptyString.

(** [func readFileAsStrings(filepath string) ([]string, error)]: the lines
    the reader delivers, the last one with or without its line feed, each
    trimmed, the empty ones left out; when the reader ends on an error
    the lines read so far come back with it. *)
Definition readFileAsStrings (w : World) (filepath : string)
  : list string * option error :=
  match w_Open w filepath with
  | Some err =>
      ([], Some (ErrOther ("Failed to read " +:+ filepath +:+ ": " +:+
                           error_message err)))
  | None =>
      let '(data, err) := w_Read w filepath in
      (List.filter (fun line => negb (String.eqb line ""))
         (List.map strings_TrimSpace (strings_Split data newline)),
       match err with
       | Some e =>
           Some (ErrOther ("Failed to read " +:+ filepath +:+ ": " +:+
                           error_message e))
       | None => None
       end)
  end.

(** The eleven values a progress line prints, in the order of the format
    string; the byte counts go through [toMb]. *)
Definition progress_values (s : Stats) : list Z :=
  [found s; totalSize s; nbHashed s; bytesHashed s; nbNotHashed s;
   bytesNotHashed s; nbArchived s; bytesArchived s; nbNotArchived s;
   bytesNotArchived s; errors s].

(** A line written to [a.GetOut()]: its values, and whether it ends in a
    line feed (the last line) or a carriage return (a tick). *)
Record Printed : Type := mkPrinted {
  p_values : list Z;
  p_last : bool
}.

(** The case the driver's [select] takes; a tick sees the counters as
    they stand then. *)
Inductive Pick : Type :=
| PickInterrupted
| PickEntry
| PickTick (seen : Stats).

Section Driver.
Context {T : Type} {CT : CasTable T} {N : Type} {NT : NodesTable N}.

Record MainState : Type := mkMainState {
  ms_err : option error;     (* what main returns *)
  ms_nodes : N;
  ms_printed : list Printed
}.

Definition got_errors (e : Z) (otherwise : string) : error :=
  if negb (e =? 0) then ErrOther ("Got " +:+ fmt_d e +:+ " errors!")
  else ErrOther otherwise.

(** The [case item, ok := <-entry] arm: [entry] is what is left on the
    channel (empty: closed), [s] the counters at that moment. *)
Definition main_receive (s : Stats) (entry : list string) (comment : string)
    (base : string) (st : MainState) : MainState :=
  match entry with
  | [] =>
      mkMainState (Some (got_errors (errors s) "Was likely interrupted."))
        (ms_nodes st) (ms_printed st)
  | item :: _ =>
      if negb (String.eqb item "") then
        let node := mkNode item comment in
        let '(nodes', _) := nodes_AddEntry (ms_nodes st) node base in
        mkMainState None nodes'
          (ms_printed st ++ [mkPrinted (progress_values s) true])
      else
        mkMainState (Some (got_errors (errors s) "Unexpected error."))
          (ms_nodes st) (ms_printed st)
  end.

(** The [for { select { ... } }] of [main]. When the picks are used up
    the entry channel is ready: its stage has sent or closed. *)
Fixpoint main_loop (picks : list Pick) (s : Stats) (entry : list string)
    (comment base : string) (st : MainState) : MainState :=
  match picks with
  | PickInterrupted :: _ =>
      mkMainState (Some (ErrOther "Was interrupted.")) (ms_nodes st)
        (ms_printed st)
  | PickTick seen :: picks' =>
      main_loop picks' s entry comment base
        (mkMainState (ms_err st) (ms_nodes st)
           (ms_printed st ++ [mkPrinted (progress_values seen) false]))
  | PickEntry :: _ | [] => main_receive s entry comment base st
  end.

(** The choices of the four selecting loops of one run. *)
Record Schedule : Type := mkSchedule {
  sch_enumerate : list bool;
  sch_hash : list bool;
  sch_archive : list bool;
  sch_main : list Pick
}.

Definition no_interrupt : Schedule := mkSchedule [] [] [] [].

Record Pipeline : Type := mkPipeline {
  pl_exits : Exit * Exit * Exit;
  pl_items : list inputItem;           (* sent by stage A *)
  pl_hashed : list itemToArchive;      (* sent by stage B *)
  pl_entry : list string;              (* sent by stage C *)
  pl_stats : Stats;
  pl_cas : T;
  pl_cache : gmap string EntryCache;
  pl_log : ReadLog
}.

(** The three stages over one [Stats], each run to its end on what the
    one before it sent. *)
Definition run_stages (w : World) (sch : Schedule)
    (cache : gmap string EntryCache) (cas : T) (inputs : list string)
  : Pipeline :=
  let '(e1, st1) := enumerateInputs w (sch_enumerate sch) Stats_zero inputs in
  let '(e2, st2) :=
    hashInputs w (sch_hash sch) cache (en_stats st1) (en_out st1) in
  let '(e3, st3) :=
    archiveInputs w (sch_archive sch) cas (hs_stats st2) (hs_out st2) in
  mkPipeline (e1, e2, e3) (en_out st1) (hs_out st2) (ar_out st3)
    (ar_stats st3) (ar_cas st3) (hs_cache st2) (hs_log st2).

(** The message of the first stage that panicked, if one did. *)
Definition first_panic (exits : Exit * Exit * Exit) : option string :=
  match exits with
  | (Panicked msg, _, _) => Some msg
  | (_, Panicked msg, _) => Some msg
  | (_, _, Panicked msg) => Some msg
  | _ => None
  end.

(** How a call of [main] ends: it returns, or a goroutine has panicked
    and the process is gone. *)
Inductive Run : Type :=
| Returns (st : MainState)
| Crashes (msg : string).

(** [func (c *archiveRun) main(a, toArchiveArg) error], from its
    arguments, the outcome of [c.Parse], of [filepath.Abs] and of
    [a.LoadCache], and the tables [Parse] has loaded. *)
Definition archiveRun_main (w : World) (sch : Schedule)
    (parsed : option error) (abs : string + error) (comment : string)
    (cache : gmap string EntryCache) (cas : T) (nodes : N)
    (toArchiveArg : string) : Run :=
  match parsed with
  | Some err => Returns (mkMainState (Some err) nodes [])
  | None =>
      match abs with
      | inr _ =>
          Returns
            (mkMainState
               (Some (ErrOther ("Failed to process " +:+ toArchiveArg)))
               nodes [])
      | inl toArchive =>
          match readFileAsStrings w toArchive with
          | (_, Some err) => Returns (mkMainState (Some err) nodes [])
          | (lines, None) =>
              let inputs := (lines ++ [toArchive])%list in
              let inputs := cleanupList w (path_Dir toArchive) inputs in
              let p := run_stages w sch cache cas inputs in
              match first_panic (pl_exits p) with
              | Some msg => Crashes msg
              | None =>
                  Returns
                    (main_loop (sch_main sch) (pl_stats p) (pl_entry p)
                       comment (path_Base toArchive)
                       (mkMainState None nodes []))
              end
          end
      end
  end.

End Driver.

(** ** The mock nodes table: [mockNodesTable.AddEntry] *)

(** [time.Now().UTC()], broken down. *)
Record Time : Type := mkTime {
  t_year : nat;
  t_month : nat;
  t_day : nat;
  t_hour : nat;
  t_minute : nat;
  t_second : nat
}.

Fixpoint zeros (n : nat) : string :=
  match n with
  | O => EmptyString
  | S n' => String "0" (zeros n')
  end.

(** A number in decimal, padded with zeros on the left up to [width]. *)
Definition padded (width n : nat) : string :=
  let d := fmt_nat n in
  zeros (width - String.length d) +:+ d.

(** [now.Format("2006-01")]. *)
Definition Format_month (now : Time) : string :=
  padded 4 (t_year now) +:+ "-" +:+ padded 2 (t_month now).

(** [now.Format("2006-01-02_15-04-05")]. *)
Definition Format_stamp (now : Time) : string :=
  padded 4 (t_year now) +:+ "-" +:+ padded 2 (t_month now) +:+ "-" +:+
  padded 2 (t_day now) +:+ "_" +:+ padded 2 (t_hour now) +:+ "-" +:+
  padded 2 (t_minute now) +:+ "-" +:+ padded 2 (t_second now).

(** Modelled from the spec: the constant [tagsName] is declared outside
    the files at hand; the spec binds [tags/<basename>]. *)
Definition tagsName : string := "tags".

(** The candidate of one turn of the loop. *)
Definition nodeName (now : Time) (name : string) (suffix : nat) : string :=
  let base := Format_stamp now +:+ "_" +:+ name in
  if negb (suffix =? 0)%nat then base +:+ "(" +:+ fmt_nat suffix +:+ ")"
  else base.

Definition nodePath (now : Time) (name : string) (suffix : nat) : string :=
  Format_month now +:+ "/" +:+ nodeName now name suffix.

Definition tagPath (name : string) : string := tagsName +:+ "/" +:+ name.

(** The [for { ... suffix += 1 }] loop: the suffix it stops at, within
    [fuel] turns. *)
Fixpoint claim_suffix (fuel : nat) (entries : gmap string Node) (now : Time)
    (name : string) (suffix : nat) : option nat :=
  match fuel with
  | O => None
  | S fuel' =>
      match entries !! nodePath now name suffix with
      | None => Some suffix
      | Some _ => claim_suffix fuel' entries now name (S suffix)
      end
  end.

(** [func (m *mockNodesTable) AddEntry(node *Node, name string) error] at
    the time [now]: the entries afterwards and the error returned. The
    loop gets one turn more than the table has entries. *)
Definition AddEntry (now : Time) (entries : gmap string Node) (node : Node)
    (name : string) : option (gmap string Node * option error) :=
  match claim_suffix (S (size entries)) entries now name 0 with
  | None => None
  | Some suffix =>
      let entries1 := <[nodePath now name suffix := node]> entries in
      Some (<[tagPath name := node]> entries1, None)
  end.

(** ** Tables and a small world to run the code on *)

(** Modelled from the spec: a CAS table kept in memory. "Storage is keyed
    by digest; storing the same digest twice is a no-op reported as
    already-exists"; a reader that fails makes [AddEntry] fail. *)
#[export] Instance memCasTable : CasTable (gmap string string) := {
  cas_AddEntry cas reader digest :=
    match reader with
    | inr err => (cas, Some err)
    | inl data =>
        match cas !! digest with
        | Some _ => (cas, Some ErrExist)
        | None => (<[digest := data]> cas, None)
        end
    end
}.

(** The mock nodes table as a [NodesTable], at a given time. *)
Definition mockNodesTable (now : Time) : NodesTable (gmap string Node) := {|
  nodes_AddEntry entries node name :=
    match AddEntry now entries node name with
    | Some r => r
    | None => (entries, None)
    end
|}.


(** A stand-in for SHA-1 in the examples. *)
Definition example_digest (data : string) : string := "sha1-of:" +:+ data.

(** The files of the example: a list file that names a missing file, and
    a directory [/d] with two regular files. *)
Definition example_files : list (string * string) :=
  [("/t/list", "/t/missing" +:+ newline);
   ("/d/a", "alpha");
   ("/d/b", "beta!")].

Fixpoint assoc (l : list (string * string)) (p : string) : option string :=
  match l with
  | [] => None
  | (k, v) :: l' => if String.eqb k p then Some v else assoc l' p
  end.

Definition example_info (data : string) : FileInfo :=
  mkFileInfo (Z.of_nat (String.length data)) 1000 false.

Definition example_tree_item (p : string) : TreeItem :=
  match assoc example_files p with
  | Some data => mkTreeItem p (Some (example_info data)) None
  | None => mkTreeItem p None (Some (ErrOther "no such file"))
  end.

Definition example_world (sep : ascii) (marshal_ok : bool) : World := {|
  w_Separator := sep;
  w_ExpandEnv := fun s => s;
  w_sha1 := example_digest;
  w_contents := fun p =>
    match assoc example_files p with
    | Some data => inl data
    | None => inr (ErrOther "no such file")
    end;
  w_Read := fun p =>
    match assoc example_files p with
    | Some data => (data, None)
    | None => ("", Some (ErrOther "no such file"))
    end;
  w_Stat := fun p =>
    if String.eqb p "/d" then inl (mkFileInfo 4096 1000 true)
    else
      match assoc example_files p with
      | Some data => inl (example_info data)
      | None => inr (ErrOther "no such file")
      end;
  w_EnumerateTree := fun p =>
    if String.eqb p "/d"
    then [example_tree_item "/d/a"; example_tree_item "/d/b"]
    else [];
  w_Open := fun p =>
    match assoc example_files p with
    | Some _ => None
    | None => Some (ErrOther "no such file")
    end;
  w_Marshal := fun _ =>
    if marshal_ok then inl "{}" else inr (ErrOther "unsupported value");
  w_clock := fun _ => 2000
|}.

Definition example_time : Time := mkTime 2012 7 14 9 30 5.

(** Items, records and states of the example. *)
Definition missing_item : inputItem :=
  mkInputItem "/t/missing" "missing" (mkFileInfo 5 1000 false).

Definition file_a_item : inputItem :=
  mkInputItem "/d/a" "a" (example_info "alpha").

Definition cached_a : EntryCache := mkEntryCache "sha1-of:alpha" 5 1000 1500.

Definition archive_start : ArchiveState (T := gmap string string) :=
  mkArchiveState Stats_zero [] [] ∅ Entry_zero.

Definition item_a : itemToArchive :=
  mkItemToArchive "/d/a" "a" "sha1-of:alpha" 5.



(** ** Reading the manifest, and [archiveRun.Run] *)

(** The entry [root] leads to along the path elements [elems], the way
    [makeEntry] walks them. *)
Fixpoint find_entry (root : Entry) (elems : list string) : option Entry :=
  match elems with
  | [] => Some root
  | p :: elems' =>
      match e_Files root !! p with
      | Some child => find_entry child elems'
      | None => None
      end
  end.

(** The path elements of an item in the manifest. *)
Definition item_elems (w : World) (item : itemToArchive) : list string :=
  strings_Split (a_relPath item) (String (w_Separator w) EmptyString).

(** A counter after [n] calls of [Add(1)]. *)
Definition bump (n : nat) (counter : Z) : Z :=
  Nat.iter n (fun c => syncInt_Add c 1) counter.

(** The test of [updateFile] on the record [FindInCache] gives for the
    item: size and timestamp are the file's. *)
Definition fresh (cache : gmap string EntryCache) (item : inputItem) : Prop :=
  Size (FindInCache cache (fullPath item)) = fi_Size (info item) /\
  Timestamp (FindInCache cache (fullPath item)) = fi_ModTime (info item).

(** What stage B sends for an item, given its digest. *)
Definition hashed_as (item : inputItem) (digest : string) : itemToArchive :=
  mkItemToArchive (fullPath item) (relPath item) digest (fi_Size (info item)).

(** What an item is known by on both sides of stage B. *)
Definition described_in (item : inputItem) : string * string * Z :=
  (fullPath item, relPath item, fi_Size (info item)).

Definition described_out (item : itemToArchive) : string * string * Z :=
  (a_fullPath item, a_relPath item, a_size item).

(** A schedule in which the interrupted case is never taken. *)
Definition never_interrupted (sched : list bool) : Prop :=
  Forall (fun b => b = false) sched.

(** The same path always comes with the same size and timestamp. *)
Definition consistent (inputs : list inputItem) : Prop :=
  forall i j, In i inputs -> In j inputs -> fullPath i = fullPath j ->
    fi_Size (info i) = fi_Size (info j) /\
    fi_ModTime (info i) = fi_ModTime (info j).

Definition readable (w : World) (item : inputItem) : Prop :=
  exists data, w_contents w (fullPath item) = inl data.

(** What stage B reads of the record for a path. *)
Definition cache_view (cache : gmap string EntryCache) (p : string)
  : string * Z * Z :=
  let r := FindInCache cache p in (Sha1 r, Size r, Timestamp r).

(** The bytes of a string. *)
Definition bytes_of (s : string) : list ascii := list_ascii_of_string s.

Definition line_feed : ascii := ascii_of_nat 10.

(** [strings.TrimSpace] on the bytes. *)
Definition trim (l : list ascii) : list ascii :=
  List.rev (trim_right_reversed (List.rev (trim_left l))).



(** The output buffer of [path.Clean] on a rooted path: the byte written
    first is the slash. *)
Definition rooted_buffer (out : list ascii) : Prop :=
  exists pre, out = (pre ++ ["/"%char])%list.

(** What a call of [Run] leaves behind: its exit code, the lines it wrote
    to [a.GetErr()], the nodes table and the lines written to
    [a.GetOut()]. *)
Record RunResult (N : Type) : Type := mkRunResult {
  rr_code : Z;
  rr_stderr : list string;
  rr_nodes : N;
  rr_printed : list Printed
}.
Arguments mkRunResult {N} _ _ _ _.
Arguments rr_code {N} _.
Arguments rr_stderr {N} _.
Arguments rr_nodes {N} _.
Arguments rr_printed {N} _.

(** [func (c *archiveRun) Run(a Application, args []string) int]; [abs]
    is the outcome of [filepath.Abs] on the argument. The result is the
    message of the panic when a stage panics. *)
Definition archiveRun_Run {T : Type} {CT : CasTable T} {N : Type}
    {NT : NodesTable N} (w : World) (sch : Schedule) (appName : string)
    (parsed : option error) (abs : string + error) (comment : string)
    (cache : gmap string EntryCache) (cas : T) (nodes : N)
    (args : list string) : RunResult N + string :=
  match args with
  | [arg] =>
      match archiveRun_main w sch parsed abs comment cache cas nodes arg with
      | Crashes msg => inr msg
      | Returns m =>
          match ms_err m with
          | Some err =>
              inl (mkRunResult 1
                     [appName +:+ ": " +:+ error_message err +:+ newline]
                     (ms_nodes m) (ms_printed m))
          | None => inl (mkRunResult 0 [] (ms_nodes m) (ms_printed m))
          end
      end
  | _ =>
      inl (mkRunResult 1
             [appName +:+ ": Must only provide a .toArchive file." +:+ newline]
             nodes [])
  end.

(** Several nodes added one after the other, at one time and under one
    name. *)
Fixpoint AddEntry_all (now : Time) (entries : gmap string Node)
    (nodes : list Node) (name : string) : option (gmap string Node) :=
  match nodes with
  | [] => Some entries
  | node :: rest =>
      match AddEntry now entries node name with
      | Some (entries', _) => AddEntry_all now entries' rest name
      | None => None
      end
  end.

(** A tick line, not the last line. *)
Definition is_tick (p : Printed) : Prop := p_last p = false.

(** ** The mock nodes table: [mockNodesTable.ServeHTTP] *)

(** [strings.HasPrefix(s, prefix)]. *)
Definition strings_HasPrefix (s prefix : string) : bool :=
  String.prefix prefix s.

Definition string_rev (s : string) : string :=
  string_of_list_ascii (List.rev (list_ascii_of_string s)).

(** [strings.HasSuffix(s, suffix)]. *)
Definition strings_HasSuffix (s suffix : string) : bool :=
  String.prefix (string_rev suffix) (string_rev s).

(** The string up to and with the first [sep], and what follows it, if
    [sep] occurs. *)
Fixpoint cut_after (s sep : string) : string * option string :=
  if String.prefix sep s then (sep, Some (skip (String.length sep) s))
  else
    match s with
    | EmptyString => (EmptyString, None)
    | String c s' =>
        let '(h, t) := cut_after s' sep in (String c h, t)
    end.

(** [strings.SplitAfterN(s, sep, 2)[0]]; with an empty [sep] that is the
    first byte. *)
Definition first_after (s sep : string) : string :=
  if String.eqb sep "" then
    match s with
    | String c (String _ _) => String c EmptyString
    | _ => s
    end
  else fst (cut_after s sep).

(** What [ServeHTTP] does with a request. *)
Inductive Response : Type :=
| Redirect (target : string)               (* localRedirect *)
| ServeNode (node : Node) (rest : string)  (* LoadEntry, then the entry's
                                              file system on [rest] *)
| DirList (items : list string)            (* dirList *)
| NotFound                                 (* http.Error, 404 *)
| SliceOutOfRange.                         (* r.URL.Path is empty *)

(** The first entry, in the order of the [range], whose key starts
    [suburl]. *)
Fixpoint first_with_prefix (order : list (string * Node)) (suburl : string)
  : option (string * Node) :=
  match order with
  | [] => None
  | (k, v) :: order' =>
      if strings_HasPrefix suburl k then Some (k, v)
      else first_with_prefix order' suburl
  end.

(** The items of the listing, one for each entry whose key starts with
    [suburl]. *)
Fixpoint listing (order : list (string * Node)) (suburl : string)
  : list string :=
  match order with
  | [] => []
  | (k, _) :: order' =>
      if strings_HasPrefix k suburl
      then first_after (skip (String.length suburl) k) "/"
           :: listing order' suburl
      else listing order' suburl
  end.

(** [func (m *mockNodesTable) ServeHTTP(w, r)], on [r.URL.Path], with the
    entries in the order the [range] over the map yields them. *)
Definition ServeHTTP (order : list (string * Node)) (urlPath : string)
  : Response :=
  match slice_from urlPath 1 with
  | None => SliceOutOfRange
  | Some suburl =>
      match
        (if negb (String.eqb suburl "") then first_with_prefix order suburl
         else None)
      with
      | Some (k, v) =>
          let rest := skip (String.length k) suburl in
          if String.eqb rest "" then Redirect (path_Base urlPath +:+ "/")
          else ServeNode v rest
      | None =>
          if negb (strings_HasSuffix urlPath "/") then
            Redirect (path_Base urlPath +:+ "/")
          else
            let items := listing order suburl in
            if negb (List.length items =? 0)%nat then DirList items
            else NotFound
      end
  end.

(** More items, records and states of the example. *)
Definition item_b : itemToArchive :=
  mkItemToArchive "/d/b" "b" "sha1-of:beta!" 5.

Definition root_with_a : Entry :=
  makeEntry (example_world "/" true) Entry_zero item_a.

Definition epoch_item : inputItem :=
  mkInputItem "/e" "e" (mkFileInfo 0 0 false).

Definition hash_start : HashState := mkHashState Stats_zero [] [] ∅ [] 0.

Definition example_node : Node := mkNode "sha1-of:{}" "nightly".

Definition example_order : list (string * Node) :=
  [("tags/list", example_node)].

(** The state [main] returns in on the example: the list file names a
    missing file and itself. *)
Definition example_main : Run (N := gmap string Node) :=
  archiveRun_main (CT := memCasTable) (NT := mockNodesTable example_time)
    (example_world "/" true) no_interrupt None (inl "/t/list") "nightly"
    ∅ ∅ ∅ "list".

Definition example_main_state : MainState (N := gmap string Node) :=
  match example_main with
  | Returns m => m
  | Crashes _ => mkMainState None ∅ []
  end.

(** The items for the inputs that [os.Stat] finds, each as a file input
    is sent. *)
Fixpoint file_items (w : World) (inputs : list string) : list inputItem :=
  match inputs with
  | [] => []
  | input :: rest =>
      match w_Stat w input with
      | inl stat =>
          mkInputItem input (path_Base input) stat :: file_items w rest
      | inr _ => file_items w rest
      end
  end.

(** The number of inputs [os.Stat] fails on. *)
Fixpoint stat_failures (w : World) (inputs : list string) : nat :=
  match inputs with
  | [] => 0%nat
  | input :: rest =>
      match w_Stat w input with
      | inl _ => stat_failures w rest
      | inr _ => S (stat_failures w rest)
      end
  end.

(** The list starts with a rune of white space, as [strip] reads it. *)
Definition starts_space (s2 : ascii -> ascii -> bool)
    (s3 : ascii -> ascii -> ascii -> bool) (l : list ascii) : bool :=
  match l with
  | [] => false
  | a :: l1 =>
      is_space a ||
      match l1 with
      | [] => false
      | b :: l2 =>
          s2 a b ||
          match l2 with
          | [] => false
          | c :: _ => s3 a b c
          end
      end
  end.

(** No-break space, U+00A0, in UTF-8. *)
Definition no_break_space : string :=
  String (ascii_of_nat 194) (String (ascii_of_nat 160) EmptyString).

(** The world of the examples, where the reader of [/t/list] delivers a
    line ending in a no-break space and the start of a second line, and
    then fails. *)
Definition torn_world : World := {|
  w_Separator := "/"%char;
  w_ExpandEnv := fun s => s;
  w_sha1 := example_digest;
  w_contents := w_contents (example_world "/" true);
  w_Read := fun p =>
    if String.eqb p "/t/list"
    then ("/t/a" +:+ no_break_space +:+ newline +:+ "  /t/b",
          Some (ErrOther "input/output error"))
    else w_Read (example_world "/" true) p;
  w_Stat := w_Stat (example_world "/" true);
  w_EnumerateTree := w_EnumerateTree (example_world "/" true);
  w_Open := w_Open (example_world "/" true);
  w_Marshal := w_Marshal (example_world "/" true);
  w_clock := w_clock (example_world "/" true)
|}.
(** ** Properties of [updateFile] *)

(** C5: when the record's size and timestamp match the file's,
    [updateFile] only sets [LastTested] to [now], returns "unchanged" and
    reads no file; otherwise, the contents being readable, the record
    becomes (sha1 of the contents, size, mtime, now), the result is
    "re-hashed", and the one file read is the item's. *)
Theorem updateFile_fast_and_slow_path :
  forall (w : World) (now : Z) (cache : EntryCache) (item : inputItem)
         (log : ReadLog),
    (Size cache = fi_Size (info item) ->
     Timestamp cache = fi_ModTime (info item) ->
     updateFile w now cache item log =
       (mkEntryCache (Sha1 cache) (Size cache) (Timestamp cache) now,
        false, None, log))
    /\
    (~ (Size cache = fi_Size (info item) /\
        Timestamp cache = fi_ModTime (info item)) ->
     forall data, w_contents w (fullPath item) = inl data ->
     updateFile w now cache item log =
       (mkEntryCache (w_sha1 w data) (fi_Size (info item))
          (fi_ModTime (info item)) now,
        true, None, (log ++ [fullPath item])%list)).
Proof.
  intros w now cache item log. unfold updateFile, sha1FilePath. split.
  - intros Hs Ht. rewrite Hs, Ht, !Z.eqb_refl. reflexivity.
  - intros Hne data Hread.
    destruct (Z.eqb_spec (Size cache) (fi_Size (info item))) as [Hs|Hs];
      destruct (Z.eqb_spec (Timestamp cache) (fi_ModTime (info item)))
        as [Ht|Ht]; simpl; try (exfalso; apply Hne; split; assumption);
      rewrite Hread; reflexivity.
Qed.

(** C9: when hashing the file fails, [updateFile] returns that error and
    the record is exactly the one it was given. *)
Theorem updateFile_error_keeps_record :
  forall (w : World) (now : Z) (cache : EntryCache) (item : inputItem)
         (log : ReadLog) (err : error),
    ~ (Size cache = fi_Size (info item) /\
       Timestamp cache = fi_ModTime (info item)) ->
    w_contents w (fullPath item) = inr err ->
    updateFile w now cache item log =
      (cache, false, Some err, (log ++ [fullPath item])%list).
Proof.
  intros w now cache item log err Hne Hread.
  unfold updateFile, sha1FilePath.
  destruct (Z.eqb_spec (Size cache) (fi_Size (info item))) as [Hs|Hs];
    destruct (Z.eqb_spec (Timestamp cache) (fi_ModTime (info item)))
      as [Ht|Ht]; simpl; try (exfalso; apply Hne; split; assumption);
    rewrite Hread; reflexivity.
Qed.

(** ** Properties of the mock nodes table *)

Lemma append_inv_head (s a b : string) : s +:+ a = s +:+ b -> a = b.
Proof.
  induction s as [|c s IH]; simpl; intros Heq; [assumption|].
  injection Heq as Heq. auto.
Qed.

Lemma append_inv_paren (a b : string) : a +:+ ")" = b +:+ ")" -> a = b.
Proof.
  revert b. induction a as [|c a IH]; intros [|d b]; simpl; intros Heq.
  - reflexivity.
  - injection Heq as _ Heq. destruct b; discriminate.
  - injection Heq as _ Heq. destruct a; discriminate.
  - injection Heq as -> Heq. f_equal. auto.
Qed.

Lemma append_length (a b : string) :
  String.length (a +:+ b) = (String.length a + String.length b)%nat.
Proof. induction a as [|c a IH]; simpl; [reflexivity|]. now rewrite IH. Qed.


Lemma fmt_nat_inj (n m : nat) : fmt_nat n = fmt_nat m -> n = m.
Proof.
  unfold fmt_nat. intros Heq. apply Unsigned.to_uint_inj.
  apply (f_equal NilEmpty.uint_of_string) in Heq.
  rewrite !NilEmpty.usu in Heq. now injection Heq.
Qed.

(** Distinct suffixes give distinct candidates. *)
Lemma nodePath_inj (now : Time) (name : string) (j k : nat) :
  nodePath now name j = nodePath now name k -> j = k.
Proof.
  unfold nodePath, nodeName. intros Heq.
  apply append_inv_head in Heq. apply append_inv_head in Heq.
  destruct j as [|j], k as [|k]; simpl in Heq; try reflexivity.
  - apply (f_equal String.length) in Heq.
    rewrite !append_length in Heq. simpl in Heq. lia.
  - apply (f_equal String.length) in Heq.
    rewrite !append_length in Heq. simpl in Heq. lia.
  - apply append_inv_head in Heq. simpl in Heq.
    injection Heq as Heq. apply append_inv_paren in Heq.
    now apply fmt_nat_inj.
Qed.

Lemma fmt_nat_head (n : nat) :
  exists c s, fmt_nat n = String c s /\ c <> "t"%char.
Proof.
  unfold fmt_nat.
  assert (Hnn : Nat.to_uint n <> Nil).
  { rewrite <- (Unsigned.of_to n) at 1. rewrite Unsigned.to_of.
    apply DecimalFacts.unorm_nonnil. }
  destruct (Nat.to_uint n); [congruence| ..]; simpl;
    eexists _, _; (split; [reflexivity | discriminate]).
Qed.

Lemma padded_head (width n : nat) :
  exists c s, padded width n = String c s /\ c <> "t"%char.
Proof.
  unfold padded. destruct (width - String.length (fmt_nat n))%nat; simpl.
  - apply fmt_nat_head.
  - eexists _, _. split; [reflexivity | discriminate].
Qed.

(** A time-bucketed name starts with the year, a tag with [tags]. *)
Lemma nodePath_not_tagPath (now : Time) (name name' : string) (k : nat) :
  nodePath now name k <> tagPath name'.
Proof.
  unfold nodePath, Format_month, tagPath, tagsName.
  destruct (padded_head 4 (t_year now)) as (c & s & -> & Hc).
  simpl. intros Heq. injection Heq as Heq _. contradiction.
Qed.

(** The loop looks only at the candidates from [suffix] on. *)
Lemma claim_suffix_ext (now : Time) (name : string) (fuel : nat) :
  forall (m1 m2 : gmap string Node) (suffix : nat),
    (forall k, (suffix <= k)%nat ->
       (m1 !! nodePath now name k = None <->
        m2 !! nodePath now name k = None)) ->
    claim_suffix fuel m1 now name suffix = claim_suffix fuel m2 now name suffix.
Proof.
  induction fuel as [|fuel IH]; intros m1 m2 suffix Hagree; simpl;
    [reflexivity|].
  pose proof (Hagree suffix (Nat.le_refl _)) as Hhere.
  destruct (m1 !! nodePath now name suffix) eqn:E1,
           (m2 !! nodePath now name suffix) eqn:E2.
  - apply IH. intros k Hk. apply Hagree. lia.
  - destruct Hhere as [_ Hhere]. specialize (Hhere eq_refl). discriminate.
  - destruct Hhere as [Hhere _]. specialize (Hhere eq_refl). discriminate.
  - reflexivity.
Qed.

(** With more turns than entries the loop finds a free candidate. *)
Lemma claim_suffix_total (now : Time) (name : string) (fuel : nat) :
  forall (m : gmap string Node) (suffix : nat),
    (size m < fuel)%nat ->
    exists k, claim_suffix fuel m now name suffix = Some k.
Proof.
  induction fuel as [|fuel IH]; intros m suffix Hsize; [lia|]. simpl.
  destruct (m !! nodePath now name suffix) as [v|] eqn:E; [|eauto].
  rewrite (claim_suffix_ext now name fuel m
             (delete (nodePath now name suffix) m) (S suffix)).
  - apply IH.
    assert (Hs : size m = S (size (delete (nodePath now name suffix) m))).
    { rewrite <- (insert_id m _ _ E) at 1. rewrite <- insert_delete_eq.
      apply map_size_insert_None, lookup_delete_eq. }
    lia.
  - intros k Hk. rewrite lookup_delete_ne; [reflexivity|].
    intros Heq. apply nodePath_inj in Heq. lia.
Qed.

(** The suffix the loop stops at is the first free one. *)
Lemma claim_suffix_first_free (now : Time) (name : string) (fuel : nat) :
  forall (m : gmap string Node) (suffix k : nat),
    claim_suffix fuel m now name suffix = Some k ->
    (suffix <= k)%nat /\
    m !! nodePath now name k = None /\
    forall j, (suffix <= j < k)%nat -> is_Some (m !! nodePath now name j).
Proof.
  induction fuel as [|fuel IH]; intros m suffix k Hk; simpl in Hk;
    [discriminate|].
  destruct (m !! nodePath now name suffix) as [v|] eqn:E.
  - destruct (IH _ _ _ Hk) as (Hle & Hfree & Htaken).
    split; [lia|]. split; [assumption|].
    intros j Hj. destruct (decide (j = suffix)) as [->|Hne]; [exists v; exact E|].
    apply Htaken. lia.
  - injection Hk as <-. split; [lia|]. split; [assumption|]. intros j Hj. lia.
Qed.


(** ** Properties of [enumerateInputs] *)

(** What one directory input does: the total size stays, and either
    nothing is sent and [found] stays, or one item is sent, or would have
    been but for a panic, and [found] grows by one. *)
Lemma enumerate_input_directory (w : World) (input : string)
    (st : EnumState) (fi : FileInfo) :
  w_Stat w input = inl fi -> fi_IsDir fi = true ->
  let st' := after (enumerate_input w input st) in
  totalSize (en_stats st') = totalSize (en_stats st) /\
  ((en_out st' = en_out st /\
    found (en_stats st') = found (en_stats st)) \/
   ((en_out st' = en_out st \/
     exists item, en_out st' = (en_out st ++ [item])%list) /\
    found (en_stats st') = syncInt_Add (found (en_stats st)) 1)).
Proof.
  intros Hstat Hdir. unfold enumerate_input. rewrite Hstat, Hdir.
  destruct (take_choice (en_sched st)) as [[|] sched']; simpl; [auto|].
  destruct (w_EnumerateTree w input) as [|item items]; simpl; [auto|].
  destruct (ti_Error item); simpl; [auto|].
  destruct (ti_FileInfo item) as [fi'|]; simpl; [|auto].
  destruct (fi_IsDir fi'); simpl; [auto|].
  destruct (slice_from _ _); simpl; eauto 6.
Qed.

(** C1, at the directory [/d] that holds the regular files [/d/a] and
    [/d/b]: the tree delivers both, [enumerateInputs] ends normally and
    has sent [/d/a] alone; [/d/b] is never sent. *)
Theorem enumerateInputs_sends_first_tree_item_only :
  let w := example_world "/" true in
  let run := enumerateInputs w [] Stats_zero ["/d"] in
  List.map ti_FullPath (w_EnumerateTree w "/d") = ["/d/a"; "/d/b"] /\
  fst run = Done /\
  List.map fullPath (en_out (snd run)) = ["/d/a"] /\
  List.map relPath (en_out (snd run)) = ["a"] /\
  found (en_stats (snd run)) = 1.
Proof. vm_compute. repeat split; reflexivity. Qed.

(** ** Properties of [cleanupList] *)

Lemma strings_Replace_zero (s old new : string) :
  strings_Replace s old new 0 = s.
Proof. unfold strings_Replace. simpl. now rewrite orb_true_r. Qed.

(** The separator plays no part in [cleanupList]. *)
Lemma cleanupList_without_replace (w : World) (relDir : string)
    (inputs : list string) :
  cleanupList w relDir inputs =
  List.map
    (fun item =>
       let item := w_ExpandEnv w item in
       path_Clean
         (if negb (path_IsAbs item) then path_Join relDir item else item))
    inputs.
Proof.
  unfold cleanupList. apply List.map_ext. intros item.
  now rewrite strings_Replace_zero.
Qed.

(** C3, where the native separator is the backslash: the slash of
    [docs/a.txt] is still a slash after [cleanupList], while replacing
    every slash would have given [docs\a.txt]. *)
Theorem cleanupList_keeps_slashes :
  let w := example_world "\" true in
  cleanupList w "/home/u" ["docs/a.txt"] = ["/home/u/docs/a.txt"] /\
  strings_Replace "docs/a.txt" "/" (String (w_Separator w) EmptyString) (-1)
    = "docs\a.txt".
Proof. vm_compute. split; reflexivity. Qed.

(** ** Properties of the archive stage *)

Section ArchiveFacts.
Context {T : Type} {CT : CasTable T}.

(** Nothing is sent on the output channel inside the loop. *)
Lemma archive_loop_sends_nothing (w : World) (items : list itemToArchive) :
  forall (st st' : ArchiveState) (e : Exit),
    archive_loop w items st = (e, st') -> ar_out st' = ar_out st.
Proof.
  induction items as [|item items IH]; intros st st' e; simpl.
  - destruct (take_choice (ar_sched st)) as [[|] sched'];
      intros Heq; injection Heq as _ <-; reflexivity.
  - unfold archive_item.
    destruct (take_choice (ar_sched st)) as [[|] sched'].
    + intros Heq; injection Heq as _ <-; reflexivity.
    + destruct (archiveItem w (ar_stats st) item (ar_cas st)) as [s' cas'].
      intros Heq. apply IH in Heq. exact Heq.
Qed.

Lemma take_choice_never (sched : list bool) :
  never_interrupted sched ->
  exists sched', take_choice sched = (false, sched') /\
                 never_interrupted sched'.
Proof.
  intros Hnever. destruct sched as [|b sched]; simpl.
  - exists []. split; [reflexivity | constructor].
  - apply Forall_cons in Hnever as [-> Hnever]. eauto.
Qed.

(** Unless it is interrupted the loop goes through all its items,
    whatever happens to each of them. *)
Lemma archive_loop_never_aborts (w : World) (items : list itemToArchive) :
  forall st : ArchiveState,
    never_interrupted (ar_sched st) ->
    fst (archive_loop w items st) = Done.
Proof.
  induction items as [|item items IH]; intros st Hnever;
    destruct (take_choice_never _ Hnever) as (sched' & Hpick & Hnever');
    simpl.
  - now rewrite Hpick.
  - unfold archive_item. rewrite Hpick.
    destruct (archiveItem w (ar_stats st) item (ar_cas st)) as [s' cas'].
    apply IH. exact Hnever'.
Qed.

(** C7: when [cas.AddEntry] succeeds the archived count is the old one
    plus 1 and the archived bytes the old ones plus the item's size (in
    [int64], as every counter); when it answers already-exists the
    skipped count and bytes grow so and the error count stays; when the
    file cannot be opened, or [AddEntry] fails otherwise, the error count
    is the old one plus 1; no other counter moves. In each case the loop
    of the stage goes on with the items that follow, and unless it is
    interrupted it goes through all of them. *)
Theorem archiveItem_counts_and_continues :
  forall (w : World) (s : Stats) (item : itemToArchive) (cas : T),
    let errors_plus_1 :=
      mkStats (wrap64 (errors s + 1)) (found s) (totalSize s) (nbHashed s)
        (bytesHashed s) (nbNotHashed s) (bytesNotHashed s) (nbArchived s)
        (bytesArchived s) (nbNotArchived s) (bytesNotArchived s) in
    (forall err, w_Open w (a_fullPath item) = Some err ->
       archiveItem w s item cas = (errors_plus_1, cas)) /\
    (forall cas' err,
       w_Open w (a_fullPath item) = None ->
       cas_AddEntry cas (w_contents w (a_fullPath item)) (a_sha1 item)
         = (cas', err) ->
       archiveItem w s item cas =
         (match err with
          | None =>
              mkStats (errors s) (found s) (totalSize s) (nbHashed s)
                (bytesHashed s) (nbNotHashed s) (bytesNotHashed s)
                (wrap64 (nbArchived s + 1))
                (wrap64 (bytesArchived s + a_size item))
                (nbNotArchived s) (bytesNotArchived s)
          | Some ErrExist =>
              mkStats (errors s) (found s) (totalSize s) (nbHashed s)
                (bytesHashed s) (nbNotHashed s) (bytesNotHashed s)
                (nbArchived s) (bytesArchived s)
                (wrap64 (nbNotArchived s + 1))
                (wrap64 (bytesNotArchived s + a_size item))
          | Some (ErrOther _) => errors_plus_1
          end, cas')) /\
    (forall z : Z,
       - 2 ^ 63 <= wrap64 z < 2 ^ 63 /\
       (wrap64 z - z) mod 2 ^ 64 = 0 /\
       (- 2 ^ 63 <= z < 2 ^ 63 -> wrap64 z = z)) /\
    (forall (rest : list itemToArchive) (st : ArchiveState),
       fst (take_choice (ar_sched st)) = false ->
       archive_loop w (item :: rest) st =
       archive_loop w rest
         (mkArchiveState
            (fst (archiveItem w (ar_stats st) item (ar_cas st)))
            (ar_out st)
            (snd (take_choice (ar_sched st)))
            (snd (archiveItem w (ar_stats st) item (ar_cas st)))
            (makeEntry w (ar_root st) item))) /\
    (forall (items : list itemToArchive) (st : ArchiveState),
       never_interrupted (ar_sched st) ->
       fst (archive_loop w items st) = Done).
Proof.
  intros w s item cas. cbv zeta.
  split; [intros err Hopen; unfold archiveItem; rewrite Hopen; reflexivity|].
  split.
  { intros cas' err Hopen Hadd. unfold archiveItem. rewrite Hopen, Hadd.
    destruct err as [[|msg]|]; reflexivity. }
  split.
  { intros z. unfold wrap64.
    pose proof (Z.mod_pos_bound (z + 2 ^ 63) (2 ^ 64) ltac:(lia)) as Hbound.
    split; [lia|]. split.
    - replace ((z + 2 ^ 63) mod 2 ^ 64 - 2 ^ 63 - z)
        with ((z + 2 ^ 63) mod 2 ^ 64 - (z + 2 ^ 63)) by lia.
      rewrite Zminus_mod_idemp_l, Z.sub_diag. reflexivity.
    - intros Hfit. rewrite Z.mod_small by lia. lia. }
  split.
  { intros rest st Hpick. simpl archive_loop. unfold archive_item.
    destruct (take_choice (ar_sched st)) as [interrupted sched'].
    simpl in Hpick. subst interrupted.
    destruct (archiveItem w (ar_stats st) item (ar_cas st)) as [s' cas'].
    reflexivity. }
  intros items st. apply archive_loop_never_aborts.
Qed.

End ArchiveFacts.

(** ** Properties of the driver *)

Section DriverFacts.
Context {N : Type} {NT : NodesTable N}.


(** On the empty digest, or on a closed channel, the driver returns an
    error and leaves the nodes table alone, whatever it picks. *)
Lemma main_loop_fails_without_digest (picks : list Pick) :
  forall (s : Stats) (entry : list string) (comment base : string)
         (st : MainState),
    entry = [] \/ (exists rest, entry = "" :: rest) ->
    ms_err (main_loop picks s entry comment base st) <> None /\
    ms_nodes (main_loop picks s entry comment base st) = ms_nodes st.
Proof.
  assert (Hrecv : forall s entry comment base (st : MainState),
            entry = [] \/ (exists rest, entry = "" :: rest) ->
            ms_err (main_receive s entry comment base st) <> None /\
            ms_nodes (main_receive s entry comment base st) = ms_nodes st).
  { intros s entry comment base st [->|[rest ->]]; simpl; split;
      (discriminate || reflexivity). }
  induction picks as [|p picks IH]; intros s entry comment base st Hentry.
  - apply Hrecv, Hentry.
  - destruct p as [| |seen]; simpl.
    + split; [discriminate | reflexivity].
    + apply Hrecv, Hentry.
    + apply (IH s entry comment base
               (mkMainState (ms_err st) (ms_nodes st)
                  (ms_printed st ++ [mkPrinted (progress_values seen) false]))).
      exact Hentry.
Qed.


End DriverFacts.

(** C6: when the loop of [archiveInputs] has ended normally and the root
    manifest cannot be serialized, or cannot be stored for a reason other
    than already-exists, the stage counts an error and the empty string
    is all it sends before it closes the channel; the driver, whatever it
    picks, then returns an error and its nodes table is the one it had. *)
Theorem manifest_failure_sends_empty_digest
    {T : Type} {CT : CasTable T} {N : Type} {NT : NodesTable N} :
  forall (w : World) (sched : list bool) (cas : T) (s : Stats)
         (items : list itemToArchive) (st : ArchiveState),
    archive_loop w items (mkArchiveState s [] sched cas Entry_zero)
      = (Done, st) ->
    manifest_fails w st ->
    archiveInputs w sched cas s items = (Done, archive_finish w st) /\
    ar_out (archive_finish w st) = [""] /\
    errors (ar_stats (archive_finish w st)) =
      syncInt_Add (errors (ar_stats st)) 1 /\
    forall (picks : list Pick) (s' : Stats) (comment base : string)
           (ms : MainState),
      let ms' :=
        main_loop picks s' (ar_out (archive_finish w st)) comment base ms in
      ms_err ms' <> None /\ ms_nodes ms' = ms_nodes ms.
Proof.
  intros w sched cas s items st Hloop Hfails.
  pose proof (archive_loop_sends_nothing w items _ _ _ Hloop) as Hout.
  simpl in Hout.
  assert (Hsent : ar_out (archive_finish w st) = [""] /\
                  errors (ar_stats (archive_finish w st)) =
                    syncInt_Add (errors (ar_stats st)) 1).
  { unfold archive_finish, manifest_fails in *. rewrite Hout.
    destruct (w_Marshal w (ar_root st)) as [data|err].
    - destruct (AddBytes w (ar_cas st) data) as [[cas' digest] err].
      destruct Hfails as [Hsome Hexist]. rewrite Hexist.
      destruct err; [|congruence]. split; reflexivity.
    - split; reflexivity. }
  destruct Hsent as [Hsent Herrors].
  split; [unfold archiveInputs; rewrite Hloop; reflexivity|].
  split; [exact Hsent|]. split; [exact Herrors|].
  intros picks s' comment base ms. cbv zeta. rewrite Hsent.
  apply main_loop_fails_without_digest. right. now exists [].
Qed.

(** ** No directory leaves [enumerateInputs], and no stage panics *)

Lemma enumerate_input_no_directory (w : World) (input : string)
    (st : EnumState) :
  Forall not_a_directory (en_out st) ->
  Forall not_a_directory (en_out (after (enumerate_input w input st))).
Proof.
  intros Hout. unfold enumerate_input.
  destruct (w_Stat w input) as [stat|err]; simpl; [|assumption].
  destruct (fi_IsDir stat) eqn:Hdir.
  - destruct (take_choice (en_sched st)) as [[|] sched']; simpl;
      [assumption|].
    destruct (w_EnumerateTree w input) as [|item items]; simpl;
      [assumption|].
    destruct (ti_Error item); simpl; [assumption|].
    destruct (ti_FileInfo item) as [fi|]; simpl; [|assumption].
    destruct (fi_IsDir fi) eqn:Hfi; simpl; [assumption|].
    destruct (slice_from _ _); simpl; [|assumption].
    apply Forall_app. split; [assumption|].
    constructor; [exact Hfi | constructor].
  - simpl. apply Forall_app. split; [assumption|].
    constructor; [exact Hdir | constructor].
Qed.

Lemma enumerate_loop_no_directory (w : World) (inputs : list string) :
  forall st : EnumState,
    Forall not_a_directory (en_out st) ->
    Forall not_a_directory (en_out (snd (enumerate_loop w inputs st))).
Proof.
  induction inputs as [|input inputs IH]; intros st Hout; simpl;
    [assumption|].
  pose proof (enumerate_input_no_directory w input st Hout) as Hstep.
  destruct (enumerate_input w input st) as [st'|e st']; simpl in *.
  - apply IH, Hstep.
  - exact Hstep.
Qed.

Lemma hash_loop_no_panic (w : World) (inputs : list inputItem) :
  Forall not_a_directory inputs ->
  forall (st : HashState) (msg : string),
    fst (hash_loop w inputs st) <> Panicked msg.
Proof.
  induction 1 as [|item inputs Hitem _ IH]; intros st msg; simpl.
  - destruct (take_choice (hs_sched st)) as [[|] sched']; discriminate.
  - unfold hash_item. red in Hitem. rewrite Hitem.
    destruct (take_choice (hs_sched st)) as [[|] sched']; [discriminate|].
    destruct (updateFile w (w_clock w (hs_calls st))
                (FindInCache (hs_cache st) (fullPath item)) item (hs_log st))
      as [[[rec wasHashed] [err|]] log']; apply IH.
Qed.

Lemma archive_loop_no_panic {T : Type} {CT : CasTable T} (w : World)
    (items : list itemToArchive) :
  forall (st : ArchiveState) (msg : string),
    fst (archive_loop w items st) <> Panicked msg.
Proof.
  induction items as [|item items IH]; intros st msg; simpl.
  - destruct (take_choice (ar_sched st)) as [[|] sched']; discriminate.
  - unfold archive_item.
    destruct (take_choice (ar_sched st)) as [[|] sched']; [discriminate|].
    destruct (archiveItem w (ar_stats st) item (ar_cas st)) as [s' cas'].
    apply IH.
Qed.

Lemma enumerate_loop_no_panic (w : World) (inputs : list string) :
  TreeContract w inputs ->
  forall (st : EnumState) (msg : string),
    fst (enumerate_loop w inputs st) <> Panicked msg.
Proof.
  induction inputs as [|input inputs IH]; intros Htree st msg; simpl;
    [discriminate|].
  assert (Hrest : TreeContract w inputs).
  { intros i item rest Hin. apply Htree. right. exact Hin. }
  specialize (IH Hrest).
  unfold enumerate_input.
  destruct (w_Stat w input) as [stat|err]; [|apply IH].
  destruct (fi_IsDir stat); [|apply IH].
  destruct (take_choice (en_sched st)) as [[|] sched']; [discriminate|].
  destruct (w_EnumerateTree w input) as [|item items'] eqn:Hd; [apply IH|].
  destruct (ti_Error item) eqn:Herr; [apply IH|].
  destruct (Htree input item items' (or_introl eq_refl) Hd Herr)
    as (fi & Hfi & Hlen).
  rewrite Hfi. destruct (fi_IsDir fi); simpl; [apply IH|].
  unfold slice_from.
  destruct (Nat.leb_spec (String.length input + 1)
              (String.length (ti_FullPath item))) as [Hle|Hgt].
  - apply IH.
  - specialize (Hlen eq_refl). lia.
Qed.

(** What holds on the code whatever the file system answers: every item
    [enumerateInputs] sends is not a directory, so [hashInputs] run on
    what it sends never takes its panic branch, nor any other panic;
    [archiveInputs] never panics; and [enumerateInputs] itself does not
    panic as long as the first item of each tree carries its file
    information and a path longer than the input. *)
Theorem no_directory_is_sent_and_no_stage_panics :
  forall w : World,
    (forall sched s inputs,
       Forall (fun item => fi_IsDir (info item) = false)
         (en_out (snd (enumerateInputs w sched s inputs)))) /\
    (forall sched s inputs sched' cache s' msg,
       fst (hashInputs w sched' cache s'
              (en_out (snd (enumerateInputs w sched s inputs))))
       <> Panicked msg) /\
    (forall (T : Type) (C : CasTable T) sched (cas : T) s items msg,
       fst (archiveInputs w sched cas s items) <> Panicked msg) /\
    (forall sched s inputs,
       TreeContract w inputs ->
       forall msg, fst (enumerateInputs w sched s inputs) <> Panicked msg).
Proof.
  intros w.
  assert (Hsent : forall sched s inputs,
            Forall not_a_directory
              (en_out (snd (enumerateInputs w sched s inputs)))).
  { intros sched s inputs. apply enumerate_loop_no_directory. constructor. }
  split; [exact Hsent|]. split.
  { intros sched s inputs sched' cache s' msg.
    apply hash_loop_no_panic, Hsent. }
  split.
  { intros T C sched cas s items msg. unfold archiveInputs.
    pose proof (archive_loop_no_panic w items
                  (mkArchiveState s [] sched cas Entry_zero) msg) as Hloop.
    destruct (archive_loop w items _) as [[| |m] st]; simpl in *;
      [discriminate | discriminate | exact Hloop]. }
  intros sched s inputs Htree msg. now apply enumerate_loop_no_panic.
Qed.

(** The slice of [enumerateInputs] has no guard: whenever the first item
    of a directory's tree is a file whose path is not longer than the
    input, the stage panics, after it has counted the item as found. *)
Lemma enumerate_input_slice_panics (w : World) (input : string)
    (st : EnumState) (stat fi : FileInfo) (item : TreeItem)
    (rest : list TreeItem) :
  w_Stat w input = inl stat ->
  fi_IsDir stat = true ->
  fst (take_choice (en_sched st)) = false ->
  w_EnumerateTree w input = item :: rest ->
  ti_Error item = None ->
  ti_FileInfo item = Some fi ->
  fi_IsDir fi = false ->
  (String.length (ti_FullPath item) <= String.length input)%nat ->
  enumerate_input w input st =
    Leave (Panicked "slice bounds out of range")
      (mkEnumState (add_found 1 (en_stats st)) (en_out st)
         (snd (take_choice (en_sched st)))).
Proof.
  intros Hstat Hdir Hpick Htree Herr Hfi Hfile Hlen. unfold enumerate_input.
  rewrite Hstat, Hdir, Htree.
  destruct (take_choice (en_sched st)) as [interrupted sched'].
  simpl in Hpick. subst interrupted. rewrite Herr, Hfi, Hfile. simpl.
  unfold slice_from.
  destruct (Nat.leb_spec (String.length input + 1)
              (String.length (ti_FullPath item))) as [Hle|Hgt];
    [lia | reflexivity].
Qed.


(** ** The total size counts the file inputs only *)

Lemma enumerate_input_totalSize (w : World) (input : string) (st : EnumState) :
  totalSize (en_stats (after (enumerate_input w input st))) =
  List.fold_left syncInt_Add (file_input_sizes w [input])
    (totalSize (en_stats st)).
Proof.
  simpl. destruct (w_Stat w input) as [stat|err] eqn:Hstat.
  - destruct (fi_IsDir stat) eqn:Hdir.
    + apply (enumerate_input_directory w input st stat Hstat Hdir).
    + unfold enumerate_input. rewrite Hstat, Hdir. reflexivity.
  - unfold enumerate_input. rewrite Hstat. reflexivity.
Qed.

Lemma file_input_sizes_cons (w : World) (input : string)
    (inputs : list string) :
  file_input_sizes w (input :: inputs) =
  (file_input_sizes w [input] ++ file_input_sizes w inputs)%list.
Proof.
  simpl. destruct (w_Stat w input) as [stat|err]; [|reflexivity].
  destruct (fi_IsDir stat); reflexivity.
Qed.

Lemma enumerate_input_leaves_early (w : World) (input : string)
    (st st' : EnumState) (e : Exit) :
  enumerate_input w input st = Leave e st' -> e <> Done.
Proof.
  unfold enumerate_input.
  destruct (w_Stat w input) as [stat|err]; [|discriminate].
  destruct (fi_IsDir stat); [|discriminate].
  destruct (take_choice (en_sched st)) as [[|] sched'];
    [intros Heq; injection Heq as <- _; discriminate|].
  destruct (w_EnumerateTree w input) as [|item items]; [discriminate|].
  destruct (ti_Error item); [discriminate|].
  destruct (ti_FileInfo item) as [fi|];
    [|intros Heq; injection Heq as <- _; discriminate].
  destruct (fi_IsDir fi); simpl; [discriminate|].
  destruct (slice_from _ _);
    [discriminate | intros Heq; injection Heq as <- _; discriminate].
Qed.

(** The total size after the loop sums the file inputs among those it
    got through: all of them when it ended normally. *)
Lemma enumerate_loop_totalSize (w : World) (inputs : list string) :
  forall st : EnumState,
  exists k : nat,
    (k <= List.length inputs)%nat /\
    (fst (enumerate_loop w inputs st) = Done -> k = List.length inputs) /\
    totalSize (en_stats (snd (enumerate_loop w inputs st))) =
      List.fold_left syncInt_Add (file_input_sizes w (List.firstn k inputs))
        (totalSize (en_stats st)).
Proof.
  induction inputs as [|input inputs IH]; intros st.
  - exists 0%nat. simpl. auto.
  - pose proof (enumerate_input_totalSize w input st) as Hstep.
    simpl enumerate_loop.
    destruct (enumerate_input w input st) as [st1|e st1] eqn:Hinput;
      simpl in Hstep.
    + destruct (IH st1) as (k & Hk & Hdone & Hsum).
      exists (S k). split; [simpl; lia|]. split; [intros Hd; simpl; auto|].
      rewrite Hsum, Hstep. rewrite List.firstn_cons, file_input_sizes_cons.
      rewrite List.fold_left_app. reflexivity.
    + exists 1%nat. split; [simpl; lia|]. split.
      * simpl. intros ->. now apply enumerate_input_leaves_early in Hinput.
      * simpl snd. rewrite Hstep. simpl List.firstn. reflexivity.
Qed.

(** C10: [enumerateInputs] adds to [totalSize] the size of each input
    that is itself a file, and nothing else: a directory input leaves
    [totalSize] as it was even when a file found in it is counted in
    [found]; so the total after a run is the sum, by [Add], of the sizes
    of the file inputs it got through, and that counter is the second
    value of the progress line. *)
Theorem totalSize_counts_file_inputs_only :
  forall (w : World) (sched : list bool) (s : Stats) (inputs : list string),
    (exists k : nat,
       (k <= List.length inputs)%nat /\
       (fst (enumerateInputs w sched s inputs) = Done ->
        k = List.length inputs) /\
       totalSize (en_stats (snd (enumerateInputs w sched s inputs))) =
         List.fold_left syncInt_Add
           (file_input_sizes w (List.firstn k inputs)) (totalSize s)) /\
    (forall input st stat,
       w_Stat w input = inl stat -> fi_IsDir stat = true ->
       let st' := after (enumerate_input w input st) in
       totalSize (en_stats st') = totalSize (en_stats st) /\
       ((en_out st' = en_out st /\
         found (en_stats st') = found (en_stats st)) \/
        ((en_out st' = en_out st \/
          exists item, en_out st' = (en_out st ++ [item])%list) /\
         found (en_stats st') = syncInt_Add (found (en_stats st)) 1))) /\
    (forall input st stat,
       w_Stat w input = inl stat -> fi_IsDir stat = false ->
       let st' := after (enumerate_input w input st) in
       totalSize (en_stats st') =
         syncInt_Add (totalSize (en_stats st)) (fi_Size stat) /\
       found (en_stats st') = syncInt_Add (found (en_stats st)) 1 /\
       en_out st' =
         (en_out st ++ [mkInputItem input (path_Base input) stat])%list) /\
    (forall s' : Stats, List.nth 1 (progress_values s') 0 = totalSize s').
Proof.
  intros w sched s inputs.
  split; [apply (enumerate_loop_totalSize w inputs (mkEnumState s [] sched))|].
  split; [intros input st stat; apply enumerate_input_directory|].
  split; [|reflexivity].
  intros input st stat Hstat Hdir. unfold enumerate_input.
  rewrite Hstat, Hdir. simpl. auto.
Qed.

(** ** The theorems at work on the example *)

(** C5 on [/d/a]: with the record of an earlier run only [LastTested]
    moves and nothing is read; with a fresh record the file is hashed. *)
Lemma updateFile_fast_and_slow_path_witness :
  updateFile (example_world "/" true) 2000 cached_a file_a_item []
    = (mkEntryCache "sha1-of:alpha" 5 1000 2000, false, None, []) /\
  updateFile (example_world "/" true) 2000 EntryCache_zero file_a_item []
    = (mkEntryCache "sha1-of:alpha" 5 1000 2000, true, None, ["/d/a"]).
Proof.
  split.
  - apply (proj1 (updateFile_fast_and_slow_path (example_world "/" true)
                    2000 cached_a file_a_item [])); reflexivity.
  - apply (proj2 (updateFile_fast_and_slow_path (example_world "/" true)
                    2000 EntryCache_zero file_a_item [])).
    + intros [Hsize _]. discriminate Hsize.
    + reflexivity.
Defined.

(** C9 on the missing file: the error comes back and the record is the
    zero record it was. *)
Lemma updateFile_error_keeps_record_witness :
  w_contents (example_world "/" true) "/t/missing"
    = inr (ErrOther "no such file") /\
  updateFile (example_world "/" true) 2000 EntryCache_zero missing_item []
    = (EntryCache_zero, false, Some (ErrOther "no such file"),
       ["/t/missing"]).
Proof.
  split; [reflexivity|].
  apply (updateFile_error_keeps_record (example_world "/" true) 2000
           EntryCache_zero missing_item [] (ErrOther "no such file")).
  - intros [Hsize _]. discriminate Hsize.
  - reflexivity.
Defined.



(** C6 where [json.Marshal] fails, with no item to archive. *)
Lemma manifest_failure_sends_empty_digest_witness :
  manifest_fails (CT := memCasTable) (example_world "/" false) archive_start /\
  ar_out (archive_finish (CT := memCasTable) (example_world "/" false)
            archive_start) = [""].
Proof.
  split; [exact I|].
  apply (proj1 (proj2
    (manifest_failure_sends_empty_digest (CT := memCasTable)
       (NT := mockNodesTable example_time) (example_world "/" false)
       [] ∅ Stats_zero [] archive_start eq_refl I))).
Defined.

(** C7 on [/d/a], five bytes long: archived into an empty table, one
    item and five bytes more are archived; with its digest in the table,
    one item and five bytes more are skipped. *)
Lemma archiveItem_counts_and_continues_witness :
  archiveItem (CT := memCasTable) (example_world "/" true) Stats_zero item_a ∅
    = (mkStats 0 0 0 0 0 0 0 1 5 0 0, {["sha1-of:alpha" := "alpha"]}) /\
  archiveItem (CT := memCasTable) (example_world "/" true) Stats_zero item_a
    {["sha1-of:alpha" := "alpha"]}
    = (mkStats 0 0 0 0 0 0 0 0 0 1 5, {["sha1-of:alpha" := "alpha"]}).
Proof.
  split.
  - exact (proj1 (proj2 (archiveItem_counts_and_continues (CT := memCasTable)
             (example_world "/" true) Stats_zero item_a ∅))
             {["sha1-of:alpha" := "alpha"]} None eq_refl eq_refl).
  - exact (proj1 (proj2 (archiveItem_counts_and_continues (CT := memCasTable)
             (example_world "/" true) Stats_zero item_a
             {["sha1-of:alpha" := "alpha"]}))
             {["sha1-of:alpha" := "alpha"]} (Some ErrExist) eq_refl eq_refl).
Defined.

(** The tree of [/d] keeps the contract. *)
Lemma example_TreeContract : TreeContract (example_world "/" true) ["/d"].
Proof.
  intros input item rest [<-|[]] Htree _.
  injection Htree as <- _. eexists. split; [reflexivity|].
  intros _. vm_compute. lia.
Qed.

(** On the directory [/d] the enumeration does not panic. *)
Lemma no_directory_is_sent_and_no_stage_panics_witness :
  TreeContract (example_world "/" true) ["/d"] /\
  fst (enumerateInputs (example_world "/" true) [] Stats_zero ["/d"])
    <> Panicked "slice bounds out of range".
Proof.
  split; [exact example_TreeContract|].
  apply (proj2 (proj2 (proj2
    (no_directory_is_sent_and_no_stage_panics (example_world "/" true))))
    [] Stats_zero ["/d"] example_TreeContract).
Defined.

(** C10 on the directory [/d] and on the file [/d/a]. *)
Lemma totalSize_counts_file_inputs_only_witness :
  let w := example_world "/" true in
  let st := mkEnumState Stats_zero [] [] in
  totalSize (en_stats (after (enumerate_input w "/d" st))) = 0 /\
  found (en_stats (after (enumerate_input w "/d" st))) = 1 /\
  totalSize (en_stats (after (enumerate_input w "/d/a" st))) = 5.
Proof.
  cbv zeta.
  pose proof (totalSize_counts_file_inputs_only (example_world "/" true)
                [] Stats_zero []) as (_ & Hdir & Hfile & _).
  split; [|split].
  - apply (Hdir "/d" (mkEnumState Stats_zero [] [])
             (mkFileInfo 4096 1000 true)); reflexivity.
  - reflexivity.
  - apply (Hfile "/d/a" (mkEnumState Stats_zero [] [])
             (example_info "alpha")); reflexivity.
Defined.

(** Two nodes added with the name [list] in the same second, to an empty
    table: the second one gets the suffix [(1)] and the tag. *)
Example AddEntry_twice_in_one_second :
  let first := mkNode "digest1" "" in
  let second := mkNode "digest2" "" in
  match AddEntry example_time ∅ first "list" with
  | Some (entries, None) =>
      match AddEntry example_time entries second "list" with
      | Some (entries', None) =>
          entries' !! "2012-07/2012-07-14_09-30-05_list" = Some first /\
          entries' !! "2012-07/2012-07-14_09-30-05_list(1)" = Some second /\
          entries' !! "tags/list" = Some second /\
          size entries' = 3%nat
      | _ => False
      end
  | _ => False
  end.
Proof. vm_compute. repeat split; reflexivity. Qed.

(** ** Properties of [makeEntry] *)

Lemma find_makeEntry_walk (elems : list string) (item : itemToArchive) :
  forall root : Entry,
  exists e,
    find_entry (makeEntry_walk root elems item) elems = Some e /\
    e_Sha1 e = a_sha1 item /\ e_Size e = a_size item.
Proof.
  induction elems as [|p elems IH]; intros root; simpl.
  - eexists. split; [reflexivity|]. split; reflexivity.
  - rewrite lookup_insert_eq. apply IH.
Qed.

Lemma find_makeEntry_walk_other (elems : list string) (item : itemToArchive) :
  forall (root : Entry) (other : list string) (e : Entry),
    other <> elems ->
    find_entry root other = Some e ->
    exists e',
      find_entry (makeEntry_walk root elems item) other = Some e' /\
      e_Sha1 e' = e_Sha1 e /\ e_Size e' = e_Size e.
Proof.
  induction elems as [|p elems IH]; intros root other e Hne Hfind.
  - destruct other as [|q other]; [congruence|]. simpl in *.
    exists e. auto.
  - destruct other as [|q other]; simpl in *.
    + injection Hfind as <-. eexists. split; [reflexivity|].
      split; reflexivity.
    + destruct (decide (p = q)) as [->|Hpq].
      * rewrite lookup_insert_eq.
        destruct (e_Files root !! q) as [child|]; [|discriminate].
        simpl. apply IH; [congruence | exact Hfind].
      * rewrite lookup_insert_ne by exact Hpq.
        destruct (e_Files root !! q) as [child|]; [|discriminate].
        exists e. auto.
Qed.

Lemma strings_Split_cons (s : string) (c : ascii) :
  exists h t, strings_Split s (String c EmptyString) = h :: t.
Proof.
  unfold strings_Split. simpl String.eqb.
  destruct (split_from _ s _) as [h t]. eauto.
Qed.

Lemma makeEntry_find (w : World) (root : Entry) (item : itemToArchive) :
  exists e,
    find_entry (makeEntry w root item) (item_elems w item) = Some e /\
    e_Sha1 e = a_sha1 item /\ e_Size e = a_size item.
Proof. apply find_makeEntry_walk. Qed.

(** X1: [makeEntry] leaves the root's own digest and size alone, and
    afterwards the walk along the item's path elements ends at an entry
    that carries the item's digest and size. *)
Theorem makeEntry_records_item :
  forall (w : World) (root : Entry) (item : itemToArchive),
    e_Sha1 (makeEntry w root item) = e_Sha1 root /\
    e_Size (makeEntry w root item) = e_Size root /\
    exists e,
      find_entry (makeEntry w root item) (item_elems w item) = Some e /\
      e_Sha1 e = a_sha1 item /\ e_Size e = a_size item.
Proof.
  intros w root item. unfold makeEntry, item_elems.
  destruct (strings_Split_cons (a_relPath item) (w_Separator w))
    as (h & t & ->).
  split; [reflexivity|]. split; [reflexivity|].
  apply find_makeEntry_walk.
Qed.


(** X2: an entry that could be reached before [makeEntry] can be reached
    after it, with the digest and size it had, unless it sits exactly at
    the item's own path. *)
Theorem makeEntry_keeps_other_entries :
  forall (w : World) (root : Entry) (item : itemToArchive)
         (other : list string) (e : Entry),
    other <> item_elems w item ->
    find_entry root other = Some e ->
    exists e',
      find_entry (makeEntry w root item) other = Some e' /\
      e_Sha1 e' = e_Sha1 e /\ e_Size e' = e_Size e.
Proof.
  intros w root item other e Hne Hfind.
  now apply find_makeEntry_walk_other.
Qed.

(** ** Properties of the archive stage as a whole *)

Lemma bump_succ_r (n : nat) (c : Z) : bump n (syncInt_Add c 1) = bump (S n) c.
Proof. unfold bump. now rewrite Nat.iter_succ_r. Qed.

Section ArchiveStage.
Context {T : Type} {CT : CasTable T}.

Lemma archive_finish_root (w : World) (st : ArchiveState) :
  ar_root (archive_finish w st) = ar_root st.
Proof.
  unfold archive_finish. destruct (w_Marshal w (ar_root st)); [|reflexivity].
  destruct (AddBytes w (ar_cas st) s) as [[cas' digest] err].
  destruct (os_IsExist err); [reflexivity|]. destruct err; reflexivity.
Qed.

(** A loop that ends normally has put every item into the manifest. *)
Lemma archive_loop_root (w : World) (items : list itemToArchive) :
  forall st st' : ArchiveState,
    archive_loop w items st = (Done, st') ->
    ar_root st' = List.fold_left (makeEntry w) items (ar_root st).
Proof.
  induction items as [|item items IH]; intros st st'; simpl.
  - destruct (take_choice (ar_sched st)) as [[|] sched'];
      intros Heq; [discriminate|]. injection Heq as <-. reflexivity.
  - unfold archive_item.
    destruct (take_choice (ar_sched st)) as [[|] sched']; [discriminate|].
    destruct (archiveItem w (ar_stats st) item (ar_cas st)) as [s' cas'].
    intros Hloop. apply IH in Hloop. exact Hloop.
Qed.

Lemma fold_makeEntry_keeps (w : World) (items : list itemToArchive)
    (elems : list string) :
  forall (root e : Entry),
    Forall (fun it => item_elems w it <> elems) items ->
    find_entry root elems = Some e ->
    exists e',
      find_entry (List.fold_left (makeEntry w) items root) elems = Some e' /\
      e_Sha1 e' = e_Sha1 e /\ e_Size e' = e_Size e.
Proof.
  induction items as [|item items IH]; intros root e Hitems Hfind; simpl.
  - exists e. auto.
  - apply Forall_cons in Hitems as [Hitem Hitems].
    destruct (find_makeEntry_walk_other (item_elems w item) item root elems e)
      as (e1 & Hfind1 & Hsha & Hsize); [congruence | exact Hfind |].
    fold (makeEntry w root item) in Hfind1.
    destruct (IH _ e1 Hitems Hfind1) as (e2 & Hfind2 & Hsha2 & Hsize2).
    exists e2. split; [exact Hfind2|]. split; congruence.
Qed.

(** A normal end of the stage is a normal end of its loop, and the
    finish after it. *)
Lemma archiveInputs_Done (w : World) (sched : list bool) (cas : T)
    (s : Stats) (items : list itemToArchive) (st' : ArchiveState) :
  archiveInputs w sched cas s items = (Done, st') ->
  exists st,
    archive_loop w items (mkArchiveState s [] sched cas Entry_zero)
      = (Done, st) /\
    st' = archive_finish w st.
Proof.
  unfold archiveInputs.
  destruct (archive_loop w _ _) as [[| |msg] st]; intros Heq;
    [|discriminate Heq|discriminate Heq].
  injection Heq as <-. eauto.
Qed.

(** X3: when [archiveInputs] ends normally, every item it received is in
    the root manifest under its path elements with its digest and size,
    whether or not the item could be opened or stored, as long as no later
    item has the same path elements. *)
Theorem archiveInputs_manifest_holds_every_item :
  forall (w : World) (sched : list bool) (cas : T) (s : Stats)
         (items : list itemToArchive) (st' : ArchiveState)
         (before after : list itemToArchive) (item : itemToArchive),
    archiveInputs w sched cas s items = (Done, st') ->
    items = (before ++ item :: after)%list ->
    Forall (fun it => item_elems w it <> item_elems w item) after ->
    exists e,
      find_entry (ar_root st') (item_elems w item) = Some e /\
      e_Sha1 e = a_sha1 item /\ e_Size e = a_size item.
Proof.
  intros w sched cas s items st' before after item Hrun -> Hafter.
  apply archiveInputs_Done in Hrun as (st & Hloop & ->).
  rewrite archive_finish_root, (archive_loop_root _ _ _ _ Hloop).
  simpl ar_root. rewrite List.fold_left_app. simpl List.fold_left.
  destruct (makeEntry_find w
              (List.fold_left (makeEntry w) before Entry_zero) item)
    as (e1 & Hfind1 & Hsha1 & Hsize1).
  destruct (fold_makeEntry_keeps w after (item_elems w item) _ e1 Hafter Hfind1)
    as (e2 & Hfind2 & Hsha2 & Hsize2).
  exists e2. split; [exact Hfind2|]. split; congruence.
Qed.

(** Each turn of the loop adds one to exactly one of the archived, the
    skipped and the error count. *)
Lemma archiveItem_bumps_one (w : World) (s : Stats) (item : itemToArchive)
    (cas : T) :
  let s' := fst (archiveItem w s item cas) in
  exists a k e : nat,
    (a + k + e = 1)%nat /\
    nbArchived s' = bump a (nbArchived s) /\
    nbNotArchived s' = bump k (nbNotArchived s) /\
    errors s' = bump e (errors s).
Proof.
  unfold archiveItem.
  destruct (w_Open w (a_fullPath item)).
  - exists 0%nat, 0%nat, 1%nat. simpl. auto.
  - destruct (cas_AddEntry cas _ _) as [cas' [[|msg]|]]; simpl.
    + exists 0%nat, 1%nat, 0%nat. simpl. auto.
    + exists 0%nat, 0%nat, 1%nat. simpl. auto.
    + exists 1%nat, 0%nat, 0%nat. simpl. auto.
Qed.

Lemma archive_loop_counts (w : World) (items : list itemToArchive) :
  forall st st' : ArchiveState,
    archive_loop w items st = (Done, st') ->
    exists a k e : nat,
      (a + k + e = List.length items)%nat /\
      nbArchived (ar_stats st') = bump a (nbArchived (ar_stats st)) /\
      nbNotArchived (ar_stats st') = bump k (nbNotArchived (ar_stats st)) /\
      errors (ar_stats st') = bump e (errors (ar_stats st)).
Proof.
  induction items as [|item items IH]; intros st st'; simpl.
  - destruct (take_choice (ar_sched st)) as [[|] sched'];
      intros Heq; [discriminate|]. injection Heq as <-.
    exists 0%nat, 0%nat, 0%nat. simpl. auto.
  - unfold archive_item.
    destruct (take_choice (ar_sched st)) as [[|] sched']; [discriminate|].
    pose proof (archiveItem_bumps_one w (ar_stats st) item (ar_cas st))
      as (a1 & k1 & e1 & Hone & Ha1 & Hk1 & He1).
    destruct (archiveItem w (ar_stats st) item (ar_cas st)) as [s' cas'].
    simpl in Ha1, Hk1, He1.
    intros Hloop. apply IH in Hloop as (a & k & e & Hsum & Ha & Hk & He).
    simpl in Ha, Hk, He.
    exists (a + a1)%nat, (k + k1)%nat, (e + e1)%nat.
    split; [lia|]. rewrite Ha, Hk, He, Ha1, Hk1, He1.
    unfold bump. rewrite !Nat.iter_add. auto.
Qed.

(** X4: when [archiveInputs] ends normally, every item it received and
    the root manifest are each counted once, in the archived count, in the
    skipped count or in the error count: the three counts have grown by
    the number of items plus one. *)
Theorem archiveInputs_counts_every_item_once :
  forall (w : World) (sched : list bool) (cas : T) (s : Stats)
         (items : list itemToArchive) (st' : ArchiveState),
    archiveInputs w sched cas s items = (Done, st') ->
    exists a k e : nat,
      (a + k + e = List.length items + 1)%nat /\
      nbArchived (ar_stats st') = bump a (nbArchived s) /\
      nbNotArchived (ar_stats st') = bump k (nbNotArchived s) /\
      errors (ar_stats st') = bump e (errors s).
Proof.
  intros w sched cas s items st' Hrun.
  apply archiveInputs_Done in Hrun as (st & Hloop & ->).
  apply archive_loop_counts in Hloop as (a & k & e & Hsum & Ha & Hk & He).
  simpl in Ha, Hk, He. unfold archive_finish.
  destruct (w_Marshal w (ar_root st)) as [data|err]; simpl.
  - destruct (AddBytes w (ar_cas st) data) as [[cas' digest] [[|msg]|]];
      simpl.
    + exists a, (S k), e. rewrite Ha, Hk, He. split; [lia|]. auto.
    + exists a, k, (S e). rewrite Ha, Hk, He. split; [lia|]. auto.
    + exists (S a), k, e. rewrite Ha, Hk, He. split; [lia|]. auto.
  - exists a, k, (S e). rewrite Ha, Hk, He. split; [lia|]. auto.
Qed.

End ArchiveStage.

Section ArchiveOutput.
Context {T : Type} {CT : CasTable T} {N : Type} {NT : NodesTable N}.

Lemma archive_loop_interrupted (w : World) (items : list itemToArchive) :
  forall st st' : ArchiveState,
    archive_loop w items st = (Interrupted, st') ->
    exists e : nat, errors (ar_stats st') = bump (S e) (errors (ar_stats st)).
Proof.
  induction items as [|item items IH]; intros st st'; simpl.
  - destruct (take_choice (ar_sched st)) as [[|] sched'];
      intros Heq; [|discriminate]. injection Heq as <-.
    exists 0%nat. reflexivity.
  - unfold archive_item.
    destruct (take_choice (ar_sched st)) as [[|] sched'].
    + intros Heq. injection Heq as <-. exists 0%nat. reflexivity.
    + pose proof (archiveItem_bumps_one w (ar_stats st) item (ar_cas st))
        as (a1 & k1 & e1 & _ & _ & _ & He1).
      destruct (archiveItem w (ar_stats st) item (ar_cas st)) as [s' cas'].
      simpl in He1. intros Hloop. apply IH in Hloop as [e He].
      simpl in He. exists (e + e1)%nat. rewrite He, He1.
      unfold bump. now rewrite <- Nat.iter_add.
Qed.

(** X5: a stage that ends normally has sent exactly one value, the empty
    string or the digest of the serialized root manifest; a stage that
    was interrupted has sent nothing and has counted at least the
    interruption as an error, and the driver then returns an error,
    whatever it picks, with its nodes table as it was. *)
Theorem archiveInputs_sends_one_digest_or_nothing :
  forall (w : World) (sched : list bool) (cas : T) (s : Stats)
         (items : list itemToArchive),
    let run := archiveInputs w sched cas s items in
    (fst run = Done ->
     exists d, ar_out (snd run) = [d] /\
       (d = "" \/
        exists data, w_Marshal w (ar_root (snd run)) = inl data /\
                     d = w_sha1 w data)) /\
    (fst run = Interrupted ->
     ar_out (snd run) = [] /\
     (exists e : nat, errors (ar_stats (snd run)) = bump (S e) (errors s)) /\
     forall (picks : list Pick) (s' : Stats) (comment base : string)
            (ms : MainState),
       let ms' := main_loop picks s' (ar_out (snd run)) comment base ms in
       ms_err ms' <> None /\ ms_nodes ms' = ms_nodes ms).
Proof.
  intros w sched cas s items. cbv zeta. unfold archiveInputs.
  destruct (archive_loop w items _) as [[| |msg] st] eqn:Hloop; simpl.
  - split; [intros _|discriminate].
    pose proof (archive_loop_sends_nothing w items _ _ _ Hloop) as Hout.
    simpl in Hout. rewrite archive_finish_root.
    unfold archive_finish. rewrite Hout.
    destruct (w_Marshal w (ar_root st)) as [data|err]; simpl; [|eauto].
    unfold AddBytes.
    destruct (cas_AddEntry (ar_cas st) (inl data) (w_sha1 w data))
      as [cas' [[|msg]|]]; simpl; eauto 6.
  - split; [discriminate|intros _].
    pose proof (archive_loop_sends_nothing w items _ _ _ Hloop) as Hout.
    simpl in Hout. rewrite Hout. split; [reflexivity|].
    split; [apply (archive_loop_interrupted w items _ _ Hloop)|].
    intros picks s' comment base ms.
    apply main_loop_fails_without_digest. now left.
  - split; discriminate.
Qed.

End ArchiveOutput.

(** ** Properties of the hash stage as a whole *)

Lemma hash_loop_sends_sublist (w : World) (inputs : list inputItem) :
  forall st : HashState,
  exists sent,
    List.map described_out (hs_out (snd (hash_loop w inputs st))) =
      (List.map described_out (hs_out st) ++ sent)%list /\
    sublist sent (List.map described_in inputs).
Proof.
  induction inputs as [|item inputs IH]; intros st; simpl.
  - exists []. rewrite app_nil_r.
    destruct (take_choice (hs_sched st)) as [[|] sched'];
      split; reflexivity || constructor.
  - unfold hash_item.
    destruct (take_choice (hs_sched st)) as [[|] sched']; simpl.
    { exists []. rewrite app_nil_r. split; [reflexivity|].
      apply sublist_nil_l. }
    destruct (fi_IsDir (info item)); simpl.
    { exists []. rewrite app_nil_r. split; [reflexivity|].
      apply sublist_nil_l. }
    destruct (updateFile _ _ _ _ _) as [[[rec wasHashed] [err|]] log'].
    + destruct (IH (mkHashState (add_errors 1 (hs_stats st)) (hs_out st)
                      sched' (<[fullPath item := rec]> (hs_cache st)) log'
                      (S (hs_calls st)))) as (sent & Hsent & Hsub).
      exists sent. split; [exact Hsent|]. now apply sublist_cons.
    + match goal with |- context [hash_loop w inputs ?st1] =>
        destruct (IH st1) as (sent & Hsent & Hsub) end.
      exists (described_in item :: sent). split.
      * rewrite Hsent. simpl. rewrite List.map_app, <- app_assoc.
        reflexivity.
      * now apply sublist_skip.
Qed.

(** X6: whatever happens, what [hashInputs] sends is, in the order
    received, a selection of the items it received, each with the path,
    relative path and size it came with. *)
Theorem hashInputs_sends_received_items_in_order :
  forall (w : World) (sched : list bool) (cache : gmap string EntryCache)
         (s : Stats) (inputs : list inputItem),
    sublist
      (List.map described_out (hs_out (snd (hashInputs w sched cache s inputs))))
      (List.map described_in inputs).
Proof.
  intros w sched cache s inputs. unfold hashInputs.
  destruct (hash_loop_sends_sublist w inputs
              (mkHashState s [] sched cache [] 0)) as (sent & -> & Hsub).
  exact Hsub.
Qed.

Lemma FindInCache_insert (cache : gmap string EntryCache) (p q : string)
    (rec : EntryCache) :
  FindInCache (<[p := rec]> cache) q =
  if decide (p = q) then rec else FindInCache cache q.
Proof.
  unfold FindInCache. rewrite lookup_insert. now destruct (decide (p = q)).
Qed.

(** One turn on an item whose record is fresh: nothing is read, the
    cached digest is sent, and only [LastTested] moves. *)
Lemma hash_item_fresh (w : World) (item : inputItem) (st : HashState)
    (sched' : list bool) :
  take_choice (hs_sched st) = (false, sched') ->
  not_a_directory item ->
  fresh (hs_cache st) item ->
  let r := FindInCache (hs_cache st) (fullPath item) in
  hash_item w item st =
  Next (mkHashState
          (add_bytesNotHashed (fi_Size (info item))
             (add_nbNotHashed 1 (hs_stats st)))
          (hs_out st ++ [hashed_as item (Sha1 r)])
          sched'
          (<[fullPath item :=
               mkEntryCache (Sha1 r) (Size r) (Timestamp r)
                 (w_clock w (hs_calls st))]> (hs_cache st))
          (hs_log st) (S (hs_calls st))).
Proof.
  intros Hpick Hdir [Hsize Htime]. unfold hash_item, updateFile.
  rewrite Hpick. red in Hdir. rewrite Hdir, Hsize, Htime, !Z.eqb_refl.
  reflexivity.
Qed.

(** One turn on a readable item: it is sent with the digest of the record
    left in the cache, whose size and timestamp are the file's. *)
Lemma hash_item_readable (w : World) (item : inputItem) (st : HashState)
    (sched' : list bool) :
  take_choice (hs_sched st) = (false, sched') ->
  not_a_directory item ->
  readable w item ->
  exists rec s1 log1,
    hash_item w item st =
    Next (mkHashState s1 (hs_out st ++ [hashed_as item (Sha1 rec)]) sched'
            (<[fullPath item := rec]> (hs_cache st)) log1
            (S (hs_calls st))) /\
    Size rec = fi_Size (info item) /\
    Timestamp rec = fi_ModTime (info item) /\
    (fresh (hs_cache st) item ->
     Sha1 rec = Sha1 (FindInCache (hs_cache st) (fullPath item))).
Proof.
  intros Hpick Hdir [data Hdata]. unfold hash_item, updateFile, sha1FilePath.
  rewrite Hpick. red in Hdir. rewrite Hdir, Hdata. unfold fresh.
  set (r := FindInCache (hs_cache st) (fullPath item)).
  destruct ((Size r =? fi_Size (info item)) &&
            (Timestamp r =? fi_ModTime (info item))) eqn:Htest.
  - apply andb_true_iff in Htest as [Hs Ht].
    apply Z.eqb_eq in Hs, Ht.
    exists (mkEntryCache (Sha1 r) (Size r) (Timestamp r)
              (w_clock w (hs_calls st))).
    eexists _, _. split; [reflexivity|]. simpl. auto.
  - exists (mkEntryCache (w_sha1 w data) (fi_Size (info item))
              (fi_ModTime (info item)) (w_clock w (hs_calls st))).
    eexists _, _. split; [reflexivity|]. simpl.
    split; [reflexivity|]. split; [reflexivity|].
    intros [Hs Ht]. rewrite Hs, Ht, !Z.eqb_refl in Htest. discriminate.
Qed.

Lemma hash_loop_fresh (w : World) (inputs : list inputItem) :
  forall st : HashState,
    never_interrupted (hs_sched st) ->
    Forall not_a_directory inputs ->
    Forall (fresh (hs_cache st)) inputs ->
    exists st',
      hash_loop w inputs st = (Done, st') /\
      hs_log st' = hs_log st /\
      hs_out st' =
        (hs_out st ++
         List.map
           (fun item =>
              hashed_as item
                (Sha1 (FindInCache (hs_cache st) (fullPath item))))
           inputs)%list /\
      nbHashed (hs_stats st') = nbHashed (hs_stats st) /\
      errors (hs_stats st') = errors (hs_stats st) /\
      nbNotHashed (hs_stats st') =
        bump (List.length inputs) (nbNotHashed (hs_stats st)).
Proof.
  induction inputs as [|item inputs IH]; intros st Hnever Hdirs Hfresh.
  - destruct (take_choice_never _ Hnever) as (sched' & Hpick & _).
    simpl. rewrite Hpick. eexists. split; [reflexivity|]. simpl.
    rewrite app_nil_r. auto 6.
  - destruct (take_choice_never _ Hnever) as (sched' & Hpick & Hnever').
    apply Forall_cons in Hdirs as [Hdir Hdirs].
    apply Forall_cons in Hfresh as [Hitem Hfresh].
    simpl hash_loop. rewrite (hash_item_fresh w item st sched' Hpick Hdir Hitem).
    set (r := FindInCache (hs_cache st) (fullPath item)).
    set (cache1 := <[fullPath item := mkEntryCache (Sha1 r) (Size r)
                       (Timestamp r) (w_clock w (hs_calls st))]> (hs_cache st)).
    assert (Hview : forall q, cache_view cache1 q = cache_view (hs_cache st) q).
    { intros q. unfold cache_view, cache1. rewrite FindInCache_insert.
      destruct (decide (fullPath item = q)) as [<-|Hne]; reflexivity. }
    match goal with |- context [hash_loop w inputs ?st1] =>
      destruct (IH st1) as (st' & Hloop & Hlog & Hout & Hnb & Herr & Hnot) end.
    + exact Hnever'.
    + exact Hdirs.
    + simpl. eapply Forall_impl; [exact Hfresh|]. intros j [Hs Ht].
      pose proof (Hview (fullPath j)) as Hj. unfold cache_view in Hj.
      injection Hj as _ Hs' Ht'. split; congruence.
    + exists st'. split; [exact Hloop|]. simpl in *.
      split; [exact Hlog|]. split.
      * rewrite Hout, <- app_assoc. simpl. do 2 f_equal.
        apply List.map_ext. intros j.
        pose proof (Hview (fullPath j)) as Hj. unfold cache_view in Hj.
        injection Hj as Hsha _ _. now rewrite Hsha.
      * split; [exact Hnb|]. split; [exact Herr|].
        rewrite Hnot. apply bump_succ_r.
Qed.

(** X7: when the record of every item received is fresh and nothing
    interrupts, [hashInputs] reads no file at all, sends every item with
    the digest its record holds, counts each as found in the cache and
    none as hashed or failed, and ends normally. *)
Theorem hashInputs_fresh_cache_reads_nothing :
  forall (w : World) (sched : list bool) (cache : gmap string EntryCache)
         (s : Stats) (inputs : list inputItem),
    never_interrupted sched ->
    Forall not_a_directory inputs ->
    Forall (fresh cache) inputs ->
    let run := hashInputs w sched cache s inputs in
    fst run = Done /\
    hs_log (snd run) = [] /\
    hs_out (snd run) =
      List.map
        (fun item =>
           hashed_as item (Sha1 (FindInCache cache (fullPath item))))
        inputs /\
    nbHashed (hs_stats (snd run)) = nbHashed s /\
    errors (hs_stats (snd run)) = errors s /\
    nbNotHashed (hs_stats (snd run)) = bump (List.length inputs) (nbNotHashed s).
Proof.
  intros w sched cache s inputs Hnever Hdirs Hfresh. cbv zeta.
  unfold hashInputs.
  destruct (hash_loop_fresh w inputs (mkHashState s [] sched cache [] 0)
              Hnever Hdirs Hfresh)
    as (st' & -> & Hlog & Hout & Hnb & Herr & Hnot).
  simpl in *. auto 6.
Qed.

(** A first run over readable items leaves every record fresh, and what
    it sent carries the digests the records hold at the end. *)
Lemma hash_loop_readable (w : World) (inputs : list inputItem) :
  forall (st : HashState) (seen : list inputItem),
    never_interrupted (hs_sched st) ->
    Forall not_a_directory inputs ->
    Forall (readable w) inputs ->
    consistent (seen ++ inputs) ->
    Forall (fresh (hs_cache st)) seen ->
    exists st',
      hash_loop w inputs st = (Done, st') /\
      Forall (fresh (hs_cache st')) (seen ++ inputs) /\
      hs_out st' =
        (hs_out st ++
         List.map
           (fun item =>
              hashed_as item
                (Sha1 (FindInCache (hs_cache st') (fullPath item))))
           inputs)%list /\
      (forall j, In j seen ->
         Sha1 (FindInCache (hs_cache st') (fullPath j)) =
         Sha1 (FindInCache (hs_cache st) (fullPath j))).
Proof.
  induction inputs as [|item inputs IH];
    intros st seen Hnever Hdirs Hread Hcons Hseen.
  - destruct (take_choice_never _ Hnever) as (sched' & Hpick & _).
    simpl. rewrite Hpick. eexists. split; [reflexivity|]. simpl.
    rewrite !app_nil_r. auto.
  - destruct (take_choice_never _ Hnever) as (sched' & Hpick & Hnever').
    apply Forall_cons in Hdirs as [Hdir Hdirs].
    apply Forall_cons in Hread as [Hitem Hread].
    destruct (hash_item_readable w item st sched' Hpick Hdir Hitem)
      as (rec & s1 & log1 & Hstep & Hsize & Htime & Hsha).
    simpl hash_loop. rewrite Hstep.
    set (cache1 := <[fullPath item := rec]> (hs_cache st)).
    assert (Hin : In item (seen ++ item :: inputs))
      by (apply in_or_app; right; left; reflexivity).
    (* an item seen before under the same path makes this one fresh *)
    assert (Hsame : forall j, In j seen -> fullPath j = fullPath item ->
                      fresh (hs_cache st) item).
    { intros j Hj Hpath.
      destruct (Hcons j item) as [Hs Ht];
        [apply in_or_app; left; exact Hj | exact Hin | exact Hpath |].
      rewrite Forall_forall in Hseen.
      destruct (Hseen j (proj2 (list_elem_of_In _ _) Hj)) as [Hs' Ht'].
      unfold fresh. rewrite <- Hpath. split; congruence. }
    assert (Hseen1 : Forall (fresh cache1) (seen ++ [item])).
    { apply Forall_app. split.
      - rewrite Forall_forall in Hseen |- *. intros j Hj.
        pose proof (Hseen j Hj) as [Hs Ht].
        apply list_elem_of_In in Hj.
        unfold fresh, cache1. rewrite FindInCache_insert.
        destruct (decide (fullPath item = fullPath j)) as [Hpath|Hne];
          [|split; assumption].
        destruct (Hcons j item) as [Hs' Ht'];
          [apply in_or_app; left; exact Hj | exact Hin | now symmetry |].
        split; congruence.
      - constructor; [|constructor]. unfold fresh, cache1.
        rewrite FindInCache_insert.
        destruct (decide (fullPath item = fullPath item)); [|congruence].
        split; assumption. }
    assert (Hkeep1 : forall j, In j seen ->
              Sha1 (FindInCache cache1 (fullPath j)) =
              Sha1 (FindInCache (hs_cache st) (fullPath j))).
    { intros j Hj. unfold cache1. rewrite FindInCache_insert.
      destruct (decide (fullPath item = fullPath j)) as [Hpath|Hne];
        [|reflexivity].
      rewrite <- Hpath. apply Hsha. apply (Hsame j Hj). now symmetry. }
    match goal with |- context [hash_loop w inputs ?st1] =>
      destruct (IH st1 (seen ++ [item])%list)
        as (st' & Hloop & Hfresh & Hout & Hkeep) end.
    + exact Hnever'.
    + exact Hdirs.
    + exact Hread.
    + rewrite <- app_assoc. exact Hcons.
    + exact Hseen1.
    + exists st'. split; [exact Hloop|]. simpl in Hout, Hkeep.
      split; [rewrite <- app_assoc in Hfresh; exact Hfresh|].
      split.
      * rewrite Hout, <- app_assoc. simpl. do 3 f_equal.
        rewrite (Hkeep item) by (apply in_or_app; right; left; reflexivity).
        unfold cache1. rewrite FindInCache_insert.
        destruct (decide (fullPath item = fullPath item)); congruence.
      * intros j Hj. rewrite (Hkeep j) by (apply in_or_app; left; exact Hj).
        apply Hkeep1, Hj.
Qed.

(** X8: run again over the same items with the cache the first run
    left, the files being readable and unchanged, [hashInputs] reads no
    file, counts nothing as hashed and sends exactly what the first run
    sent. *)
Theorem hashInputs_second_run_reads_nothing :
  forall (w : World) (sched1 sched2 : list bool)
         (cache : gmap string EntryCache) (s1 s2 : Stats)
         (inputs : list inputItem),
    never_interrupted sched1 ->
    never_interrupted sched2 ->
    Forall not_a_directory inputs ->
    Forall (readable w) inputs ->
    consistent inputs ->
    let run1 := hashInputs w sched1 cache s1 inputs in
    let run2 := hashInputs w sched2 (hs_cache (snd run1)) s2 inputs in
    fst run1 = Done /\
    fst run2 = Done /\
    hs_log (snd run2) = [] /\
    hs_out (snd run2) = hs_out (snd run1) /\
    nbHashed (hs_stats (snd run2)) = nbHashed s2.
Proof.
  intros w sched1 sched2 cache s1 s2 inputs Hn1 Hn2 Hdirs Hread Hcons.
  cbv zeta. unfold hashInputs.
  destruct (hash_loop_readable w inputs (mkHashState s1 [] sched1 cache [] 0)
              [] Hn1 Hdirs Hread Hcons (List.Forall_nil _))
    as (st1 & Hrun1 & Hfresh & Hout1 & _).
  rewrite Hrun1. simpl in Hfresh, Hout1 |- *.
  destruct (hash_loop_fresh w inputs
              (mkHashState s2 [] sched2 (hs_cache st1) [] 0)
              Hn2 Hdirs Hfresh)
    as (st2 & Hrun2 & Hlog & Hout2 & Hnb & _).
  rewrite Hrun2. simpl in *. rewrite Hout1, Hout2. auto.
Qed.

(** X9: an item of size 0 whose modification time is the epoch, with no
    record in the cache, is taken for unchanged: nothing is read and it
    is sent on with the empty string as its digest. *)
Theorem hash_item_empty_epoch_file_has_no_digest :
  forall (w : World) (item : inputItem) (st : HashState),
    fst (take_choice (hs_sched st)) = false ->
    fi_IsDir (info item) = false ->
    fi_Size (info item) = 0 ->
    fi_ModTime (info item) = 0 ->
    hs_cache st !! fullPath item = None ->
    let st' := after (hash_item w item st) in
    hs_out st' =
      (hs_out st ++ [mkItemToArchive (fullPath item) (relPath item) "" 0])%list /\
    hs_log st' = hs_log st /\
    nbHashed (hs_stats st') = nbHashed (hs_stats st) /\
    errors (hs_stats st') = errors (hs_stats st).
Proof.
  intros w item st Hpick Hdir Hsize Htime Hnone.
  destruct (take_choice (hs_sched st)) as [b sched'] eqn:Hchoice.
  simpl in Hpick. subst b.
  assert (Hfresh : fresh (hs_cache st) item).
  { unfold fresh, FindInCache. rewrite Hnone. simpl. split; congruence. }
  cbv zeta. rewrite (hash_item_fresh w item st sched' Hchoice Hdir Hfresh).
  simpl. unfold hashed_as, FindInCache. rewrite Hnone, Hsize. simpl. auto.
Qed.

(** ** Properties of [enumerateInputs] as a whole *)

Lemma enumerate_input_sends_at_most_one (w : World) (input : string)
    (st : EnumState) :
  exists n : nat,
    (n <= 1)%nat /\
    List.length (en_out (after (enumerate_input w input st))) =
      (List.length (en_out st) + n)%nat /\
    ((forall st' msg, enumerate_input w input st <> Leave (Panicked msg) st') ->
     found (en_stats (after (enumerate_input w input st))) =
       bump n (found (en_stats st))).
Proof.
  unfold enumerate_input.
  destruct (w_Stat w input) as [stat|err].
  2:{ exists 0%nat. simpl. split; [lia|]. split; [lia|auto]. }
  destruct (fi_IsDir stat).
  2:{ exists 1%nat. simpl. rewrite length_app. simpl. auto. }
  destruct (take_choice (en_sched st)) as [[|] sched'].
  { exists 0%nat. simpl. split; [lia|]. split; [lia|auto]. }
  destruct (w_EnumerateTree w input) as [|item items].
  { exists 0%nat. simpl. split; [lia|]. split; [lia|auto]. }
  destruct (ti_Error item).
  { exists 0%nat. simpl. split; [lia|]. split; [lia|auto]. }
  destruct (ti_FileInfo item) as [fi|].
  2:{ exists 0%nat. simpl. split; [lia|]. split; [lia|auto]. }
  destruct (fi_IsDir fi); simpl.
  { exists 0%nat. simpl. split; [lia|]. split; [lia|auto]. }
  destruct (slice_from _ _).
  - exists 1%nat. simpl. rewrite length_app. simpl. auto.
  - exists 0%nat. simpl. split; [lia|]. split; [lia|].
    intros Hno. exfalso. eapply Hno. reflexivity.
Qed.

Lemma enumerate_loop_found (w : World) (inputs : list string) :
  forall st : EnumState,
  exists n : nat,
    (n <= List.length inputs)%nat /\
    List.length (en_out (snd (enumerate_loop w inputs st))) =
      (List.length (en_out st) + n)%nat /\
    ((forall msg, fst (enumerate_loop w inputs st) <> Panicked msg) ->
     found (en_stats (snd (enumerate_loop w inputs st))) =
       bump n (found (en_stats st))).
Proof.
  induction inputs as [|input inputs IH]; intros st; simpl.
  - exists 0%nat. split; [lia|]. split; [lia|]. reflexivity.
  - destruct (enumerate_input_sends_at_most_one w input st)
      as (n1 & Hn1 & Hlen1 & Hfound1).
    destruct (enumerate_input w input st) as [st1|e st1] eqn:Hstep;
      simpl in *.
    + destruct (IH st1) as (n & Hn & Hlen & Hfound).
      exists (n1 + n)%nat. split; [lia|]. split; [lia|].
      intros Hno. rewrite (Hfound Hno), Hfound1 by discriminate.
      unfold bump. rewrite (Nat.add_comm n1 n). now rewrite Nat.iter_add.
    + exists n1. split; [lia|]. split; [exact Hlen1|].
      intros Hno. apply Hfound1. intros st' msg Heq.
      injection Heq as -> _. now apply (Hno msg).
Qed.

(** X10: [enumerateInputs] never sends more items than it was given
    inputs, and unless it panics the [found] counter has been raised once
    for each item sent. *)
Theorem enumerateInputs_sends_at_most_one_per_input :
  forall (w : World) (sched : list bool) (s : Stats) (inputs : list string),
    let run := enumerateInputs w sched s inputs in
    (List.length (en_out (snd run)) <= List.length inputs)%nat /\
    ((forall msg, fst run <> Panicked msg) ->
     found (en_stats (snd run)) =
       bump (List.length (en_out (snd run))) (found s)).
Proof.
  intros w sched s inputs. cbv zeta. unfold enumerateInputs.
  destruct (enumerate_loop_found w inputs (mkEnumState s [] sched))
    as (n & Hn & Hlen & Hfound).
  simpl in Hlen, Hfound. rewrite Hlen. split; [lia|exact Hfound].
Qed.

Lemma enumerate_loop_files (w : World) (inputs : list string) :
  (forall input stat, In input inputs -> w_Stat w input = inl stat ->
     fi_IsDir stat = false) ->
  forall st : EnumState,
    fst (enumerate_loop w inputs st) = Done /\
    en_out (snd (enumerate_loop w inputs st)) =
      (en_out st ++ file_items w inputs)%list /\
    en_sched (snd (enumerate_loop w inputs st)) = en_sched st /\
    errors (en_stats (snd (enumerate_loop w inputs st))) =
      bump (stat_failures w inputs) (errors (en_stats st)).
Proof.
  induction inputs as [|input inputs IH]; intros Hfiles st; simpl.
  - rewrite app_nil_r. auto.
  - assert (Hrest : forall input stat, In input inputs ->
              w_Stat w input = inl stat -> fi_IsDir stat = false)
      by (intros i s Hin; apply Hfiles; right; exact Hin).
    specialize (IH Hrest). unfold enumerate_input.
    destruct (w_Stat w input) as [stat|err] eqn:Hstat.
    + rewrite (Hfiles input stat (or_introl eq_refl) Hstat).
      match goal with |- context [enumerate_loop w inputs ?st1] =>
        destruct (IH st1) as (Hexit & Hout & Hsched & Herr) end.
      simpl in Hout, Hsched, Herr. rewrite Hexit, Hout, Hsched, Herr.
      rewrite <- app_assoc. auto.
    + match goal with |- context [enumerate_loop w inputs ?st1] =>
        destruct (IH st1) as (Hexit & Hout & Hsched & Herr) end.
      simpl in Hout, Hsched, Herr. rewrite Hexit, Hout, Hsched, Herr.
      rewrite bump_succ_r. auto.
Qed.

(** X22: when none of the inputs is a directory, [enumerateInputs] cannot
    be interrupted and ends normally: it sends, in order, every input
    [os.Stat] finds, under its base name, and counts one error for each
    input it does not find. *)
Theorem enumerateInputs_sends_every_file_input :
  forall (w : World) (sched : list bool) (s : Stats) (inputs : list string),
    (forall input stat, In input inputs -> w_Stat w input = inl stat ->
       fi_IsDir stat = false) ->
    let run := enumerateInputs w sched s inputs in
    fst run = Done /\
    en_out (snd run) = file_items w inputs /\
    en_sched (snd run) = sched /\
    errors (en_stats (snd run)) = bump (stat_failures w inputs) (errors s).
Proof.
  intros w sched s inputs Hfiles. cbv zeta. unfold enumerateInputs.
  apply (enumerate_loop_files w inputs Hfiles (mkEnumState s [] sched)).
Qed.

(** ** Properties of [readFileAsStrings] *)

Section Strip.
Variable s2 : ascii -> ascii -> bool.
Variable s3 : ascii -> ascii -> ascii -> bool.

(** What [strip] leaves is the end of the list. *)
Lemma strip_suffix (l : list ascii) :
  exists pre, l = (pre ++ strip s2 s3 l)%list.
Proof.
  remember (List.length l) as n eqn:Hn. revert l Hn.
  induction n as [n IH] using lt_wf_ind. intros l Hn.
  destruct l as [|a l1]; [exists []; reflexivity|]. simpl.
  destruct (is_space a).
  { destruct (IH (List.length l1)) with (l := l1) as [pre Hpre];
      [simpl in Hn; lia | reflexivity |].
    exists (a :: pre). simpl. now f_equal. }
  destruct l1 as [|b l2]; [exists []; reflexivity|].
  destruct (s2 a b).
  { destruct (IH (List.length l2)) with (l := l2) as [pre Hpre];
      [simpl in Hn; lia | reflexivity |].
    exists (a :: b :: pre). simpl. now do 2 f_equal. }
  destruct l2 as [|c l3]; [exists []; reflexivity|].
  destruct (s3 a b c); [|exists []; reflexivity].
  destruct (IH (List.length l3)) with (l := l3) as [pre Hpre];
    [simpl in Hn; lia | reflexivity |].
  exists (a :: b :: c :: pre). simpl. now do 3 f_equal.
Qed.

(** What [strip] leaves starts with no white space. *)
Lemma strip_starts (l : list ascii) :
  starts_space s2 s3 (strip s2 s3 l) = false.
Proof.
  remember (List.length l) as n eqn:Hn. revert l Hn.
  induction n as [n IH] using lt_wf_ind. intros l Hn.
  destruct l as [|a l1]; [reflexivity|]. simpl.
  destruct (is_space a) eqn:Ha.
  { apply (IH (List.length l1)); [simpl in Hn; lia | reflexivity]. }
  destruct l1 as [|b l2]; [simpl; now rewrite Ha|].
  destruct (s2 a b) eqn:Hb.
  { apply (IH (List.length l2)); [simpl in Hn; lia | reflexivity]. }
  destruct l2 as [|c l3]; [simpl; now rewrite Ha, Hb|].
  destruct (s3 a b c) eqn:Hc.
  { apply (IH (List.length l3)); [simpl in Hn; lia | reflexivity]. }
  simpl. now rewrite Ha, Hb, Hc.
Qed.

Lemma strip_fixed (l : list ascii) :
  starts_space s2 s3 l = false -> strip s2 s3 l = l.
Proof.
  destruct l as [|a l1]; [reflexivity|]. simpl.
  destruct (is_space a); [discriminate|].
  destruct l1 as [|b l2]; [reflexivity|].
  destruct (s2 a b); [discriminate|].
  destruct l2 as [|c l3]; [reflexivity|].
  destruct (s3 a b c); [discriminate | reflexivity].
Qed.

(** White space at the start of a list is at the start of every list it
    starts. *)
Lemma starts_space_app (p q : list ascii) :
  starts_space s2 s3 (p ++ q) = false -> starts_space s2 s3 p = false.
Proof.
  destruct p as [|a [|b [|c p]]]; simpl; try reflexivity.
  - destruct (is_space a); [discriminate | reflexivity].
  - destruct (is_space a); [discriminate|]. simpl.
    destruct (s2 a b); [discriminate | reflexivity].
  - exact id.
Qed.

End Strip.

Lemma trim_In (l : list ascii) (c : ascii) : In c (trim l) -> In c l.
Proof.
  unfold trim, trim_right_reversed, trim_left. intros Hin.
  apply List.in_rev in Hin.
  match type of Hin with In c (strip ?f ?g ?x) =>
    destruct (strip_suffix f g x) as [pre Hpre] end.
  assert (Hin' : In c (List.rev (strip is_space2 is_space3 l)))
    by (rewrite Hpre; apply in_or_app; now right).
  apply List.in_rev in Hin'.
  destruct (strip_suffix is_space2 is_space3 l) as [pre' Hpre'].
  rewrite Hpre'. apply in_or_app. now right.
Qed.

Lemma trim_idempotent (l : list ascii) : trim (trim l) = trim l.
Proof.
  unfold trim, trim_right_reversed, trim_left.
  set (right2 := fun a b => is_space2 b a).
  set (right3 := fun a b c => is_space3 c b a).
  set (m := strip is_space2 is_space3 l).
  set (t := strip right2 right3 (List.rev m)).
  assert (Hfront : strip is_space2 is_space3 (List.rev t) = List.rev t).
  { apply strip_fixed.
    destruct (strip_suffix right2 right3 (List.rev m)) as [pre Hpre].
    fold t in Hpre. apply (f_equal (@List.rev ascii)) in Hpre.
    rewrite List.rev_involutive, List.rev_app_distr in Hpre.
    apply (starts_space_app _ _ (List.rev t) (List.rev pre)).
    rewrite <- Hpre. apply strip_starts. }
  rewrite Hfront, List.rev_involutive. f_equal.
  apply strip_fixed, strip_starts.
Qed.

Lemma strings_TrimSpace_trim (s : string) :
  bytes_of (strings_TrimSpace s) = trim (bytes_of s).
Proof.
  unfold strings_TrimSpace, bytes_of.
  now rewrite list_ascii_of_string_of_list_ascii.
Qed.

Lemma strings_TrimSpace_idempotent (s : string) :
  strings_TrimSpace (strings_TrimSpace s) = strings_TrimSpace s.
Proof.
  unfold strings_TrimSpace at 1.
  change (list_ascii_of_string (strings_TrimSpace s))
    with (bytes_of (strings_TrimSpace s)).
  rewrite strings_TrimSpace_trim. fold (trim (trim (bytes_of s))).
  rewrite trim_idempotent. reflexivity.
Qed.

(** No piece of a split on one byte holds that byte. *)
Lemma split_from_no_separator (c : ascii) (fuel : nat) :
  forall (s h : string) (t : list string),
    (String.length s < fuel)%nat ->
    split_from fuel s (String c EmptyString) = (h, t) ->
    Forall (fun piece => ~ In c (bytes_of piece)) (h :: t).
Proof.
  induction fuel as [|fuel IH]; intros s h t Hfuel Hsplit; [lia|].
  simpl in Hsplit. destruct s as [|x s].
  - injection Hsplit as <- <-. constructor; [|constructor]. intros [].
  - simpl in Hfuel. simpl String.prefix in Hsplit.
    destruct (ascii_dec c x) as [->|Hne].
    + assert (Hprefix : String.prefix EmptyString s = true)
        by (destruct s; reflexivity).
      rewrite Hprefix in Hsplit. simpl skip in Hsplit.
      destruct (split_from fuel s (String x EmptyString)) as [h' t'] eqn:Hrec.
      injection Hsplit as <- <-.
      constructor; [intros []|]. apply (IH s h' t'); [lia | exact Hrec].
    + destruct (split_from fuel s (String c EmptyString)) as [h' t'] eqn:Hrec.
      injection Hsplit as <- <-.
      pose proof (IH s h' t' ltac:(lia) Hrec) as Hall.
      apply Forall_cons in Hall as [Hh Ht].
      constructor; [|exact Ht].
      simpl. intros [Heq|Hin]; [congruence | exact (Hh Hin)].
Qed.

(** X11: every line [readFileAsStrings] returns, with or without an
    error, is non-empty, has no white space left at either end, and holds
    no line feed. *)
Theorem readFileAsStrings_lines_are_trimmed :
  forall (w : World) (filepath : string),
    Forall
      (fun line =>
         line <> "" /\
         strings_TrimSpace line = line /\
         ~ In line_feed (bytes_of line))
      (fst (readFileAsStrings w filepath)).
Proof.
  intros w filepath. unfold readFileAsStrings.
  destruct (w_Open w filepath); [constructor|].
  destruct (w_Read w filepath) as [data err].
  simpl. apply List.Forall_forall. intros line Hline.
  apply List.filter_In in Hline as [Hline Hne].
  apply List.in_map_iff in Hline as (piece & <- & Hpiece).
  split.
  { intros Heq. rewrite Heq in Hne. discriminate. }
  split; [apply strings_TrimSpace_idempotent|].
  rewrite strings_TrimSpace_trim. intros Hin. apply trim_In in Hin.
  unfold strings_Split, newline in Hpiece. simpl String.eqb in Hpiece.
  destruct (split_from _ data _) as [h t] eqn:Hsplit.
  apply split_from_no_separator in Hsplit; [|lia].
  rewrite List.Forall_forall in Hsplit. exact (Hsplit piece Hpiece Hin).
Qed.

(** White space of more than one byte is trimmed as well. *)
Example strings_TrimSpace_no_break_space :
  strings_TrimSpace (no_break_space +:+ " a b" +:+ no_break_space +:+ newline)
  = "a b".
Proof. vm_compute. reflexivity. Qed.

(** A reader that fails in the second line: both lines come back,
    trimmed, together with the error. *)
Example readFileAsStrings_keeps_lines_read :
  readFileAsStrings torn_world "/t/list"
  = (["/t/a"; "/t/b"],
     Some (ErrOther "Failed to read /t/list: input/output error")).
Proof. vm_compute. reflexivity. Qed.

(** ** Properties of [cleanupList] *)

Lemma rooted_buffer_cons (c : ascii) (out : list ascii) :
  rooted_buffer out -> rooted_buffer (c :: out).
Proof. intros [pre ->]. now exists (c :: pre). Qed.

Lemma backtrack_rooted (out : list ascii) :
  rooted_buffer out -> (1 < List.length out)%nat ->
  rooted_buffer (backtrack out 1).
Proof.
  induction out as [|c out IH]; intros [pre Hpre] Hlen; simpl in *; [lia|].
  assert (Hout : rooted_buffer out).
  { destruct pre as [|x pre]; simpl in Hpre.
    - injection Hpre as _ ->. simpl in Hlen. lia.
    - injection Hpre as _ ->. now exists pre. }
  destruct (Nat.ltb_spec 1 (List.length out)) as [Hlt|Hge]; simpl;
    [|exact Hout].
  destruct (is_slash c); simpl; [exact Hout|]. apply IH; assumption.
Qed.

Lemma copy_element_rooted (s : string) :
  forall out : list ascii,
    rooted_buffer out -> rooted_buffer (snd (copy_element s out)).
Proof.
  induction s as [|c s IH]; intros out Hout; simpl; [exact Hout|].
  destruct (is_slash c); simpl; [exact Hout|].
  apply IH, rooted_buffer_cons, Hout.
Qed.

Lemma clean_loop_rooted (fuel : nat) :
  forall (rest : string) (out : list ascii),
    rooted_buffer out ->
    rooted_buffer (clean_loop fuel true rest out 1).
Proof.
  induction fuel as [|fuel IH]; intros rest out Hout; simpl; [exact Hout|].
  destruct rest as [|c r1]; [exact Hout|].
  destruct (is_slash c); [now apply IH|].
  destruct (is_dot c && at_boundary r1); [now apply IH|].
  destruct (is_dot c && _).
  - destruct (Nat.ltb_spec 1 (List.length out)) as [Hlt|Hge]; simpl.
    + apply IH. now apply backtrack_rooted.
    + now apply IH.
  - destruct (copy_element (String c r1) _) as [rest' out2] eqn:Hcopy.
    apply IH.
    change out2 with (snd (rest', out2)). rewrite <- Hcopy.
    apply copy_element_rooted.
    destruct (_ || _); [apply rooted_buffer_cons|]; exact Hout.
Qed.

(** [path.Clean] keeps an absolute path absolute. *)
Lemma path_Clean_absolute (p : string) :
  path_IsAbs p = true -> path_IsAbs (path_Clean p) = true.
Proof.
  destruct p as [|c p]; [discriminate|]. intros Hc. simpl in Hc.
  unfold path_Clean. cbv zeta. rewrite Hc. cbv iota.
  destruct (clean_loop_rooted (S (String.length (String c p)))
              (skip 1 (String c p)) ["/"%char]) as [pre Hpre];
    [now exists []|].
  rewrite Hpre.
  assert (Hshape : exists y l, (pre ++ ["/"%char])%list = y :: l)
    by (destruct pre; simpl; eauto).
  destruct Hshape as (y & l & Hyl). rewrite Hyl at 1. cbv iota.
  rewrite List.rev_app_distr. reflexivity.
Qed.

Lemma path_IsAbs_append (a b : string) :
  path_IsAbs a = true -> path_IsAbs (a +:+ b) = true.
Proof. destruct a; [discriminate|]. exact id. Qed.

(** X12: [cleanupList] keeps the length of the list, and with an absolute
    [relDir] every path it leaves in the list is absolute. *)
Theorem cleanupList_makes_paths_absolute :
  forall (w : World) (relDir : string) (inputs : list string),
    List.length (cleanupList w relDir inputs) = List.length inputs /\
    (path_IsAbs relDir = true ->
     Forall (fun p => path_IsAbs p = true) (cleanupList w relDir inputs)).
Proof.
  intros w relDir inputs. unfold cleanupList.
  split; [apply List.length_map|].
  intros Habs. apply List.Forall_forall. intros p Hp.
  apply List.in_map_iff in Hp as (item & <- & _).
  rewrite strings_Replace_zero.
  destruct (path_IsAbs (w_ExpandEnv w item)) eqn:Hitem; simpl.
  - now apply path_Clean_absolute.
  - apply path_Clean_absolute. unfold path_Join.
    destruct relDir as [|c relDir]; [discriminate|]. simpl negb. cbv iota.
    apply path_Clean_absolute. now apply path_IsAbs_append.
Qed.

(** ** Properties of [archiveRun.main] and [archiveRun.Run] *)

Section MainFacts.
Context {T : Type} {CT : CasTable T} {N : Type} {NT : NodesTable N}.

(** How the driver's loop can end: with an error and the table it had, or
    with [nil], the table as one call of [AddEntry] for a non-empty digest
    left it, and the last line printed. *)
Lemma main_loop_outcome (picks : list Pick) :
  forall (s : Stats) (entry : list string) (comment base : string)
         (st : MainState),
    Forall is_tick (ms_printed st) ->
    let m := main_loop picks s entry comment base st in
    (ms_err m <> None /\ ms_nodes m = ms_nodes st /\
     Forall is_tick (ms_printed m)) \/
    (ms_err m = None /\
     exists digest ticks,
       List.head entry = Some digest /\ digest <> "" /\
       ms_nodes m =
         fst (nodes_AddEntry (ms_nodes st) (mkNode digest comment) base) /\
       ms_printed m = (ticks ++ [mkPrinted (progress_values s) true])%list /\
       Forall is_tick ticks).
Proof.
  assert (Hrecv : forall s entry comment base (st : MainState),
            Forall is_tick (ms_printed st) ->
            let m := main_receive s entry comment base st in
            (ms_err m <> None /\ ms_nodes m = ms_nodes st /\
             Forall is_tick (ms_printed m)) \/
            (ms_err m = None /\
             exists digest ticks,
               List.head entry = Some digest /\ digest <> "" /\
               ms_nodes m =
                 fst (nodes_AddEntry (ms_nodes st) (mkNode digest comment)
                        base) /\
               ms_printed m =
                 (ticks ++ [mkPrinted (progress_values s) true])%list /\
               Forall is_tick ticks)).
  { intros s entry comment base st Hticks. cbv zeta. unfold main_receive.
    destruct entry as [|item rest].
    - left. simpl. split; [discriminate|]. auto.
    - destruct (String.eqb_spec item "") as [->|Hne]; simpl.
      + left. split; [discriminate|]. auto.
      + right.
        destruct (nodes_AddEntry (ms_nodes st) (mkNode item comment) base)
          as [nodes' err] eqn:Hadd.
        simpl. split; [reflexivity|].
        exists item, (ms_printed st).
        split; [reflexivity|]. split; [exact Hne|].
        split; [rewrite Hadd; reflexivity|].
        split; [reflexivity | exact Hticks]. }
  induction picks as [|p picks IH]; intros s entry comment base st Hticks.
  - apply Hrecv, Hticks.
  - destruct p as [| |seen]; simpl.
    + left. split; [discriminate|]. auto.
    + apply Hrecv, Hticks.
    + specialize (IH s entry comment base
                    (mkMainState (ms_err st) (ms_nodes st)
                       (ms_printed st ++
                        [mkPrinted (progress_values seen) false]))).
      simpl in IH. apply IH. apply Forall_app. split; [exact Hticks|].
      constructor; [reflexivity | constructor].
Qed.

Lemma archiveRun_main_outcome (w : World) (sch : Schedule)
    (parsed : option error) (abs : string + error) (comment : string)
    (cache : gmap string EntryCache) (cas : T) (nodes : N)
    (toArchiveArg : string) (m : MainState) :
  archiveRun_main w sch parsed abs comment cache cas nodes toArchiveArg
    = Returns m ->
  (ms_err m <> None /\ ms_nodes m = nodes /\ Forall is_tick (ms_printed m)) \/
  (ms_err m = None /\
   exists toArchive digest ticks s,
     parsed = None /\ abs = inl toArchive /\ digest <> "" /\
     ms_nodes m =
       fst (nodes_AddEntry nodes (mkNode digest comment)
              (path_Base toArchive)) /\
     ms_printed m = (ticks ++ [mkPrinted (progress_values s) true])%list /\
     Forall is_tick ticks).
Proof.
  unfold archiveRun_main.
  destruct parsed as [err|].
  { intros Heq. injection Heq as <-. left. simpl.
    split; [discriminate|]. auto. }
  destruct abs as [toArchive|err].
  2:{ intros Heq. injection Heq as <-. left. simpl.
      split; [discriminate|]. auto. }
  destruct (readFileAsStrings w toArchive) as [lines [err|]].
  { intros Heq. injection Heq as <-. left. simpl.
    split; [discriminate|]. auto. }
  destruct (first_panic _); [discriminate|].
  intros Heq. injection Heq as <-.
  match goal with |- context [main_loop ?picks ?s ?entry ?c ?b ?st] =>
    destruct (main_loop_outcome picks s entry c b st (List.Forall_nil _))
      as [Hfail | (Hnil & digest & ticks & _ & Hne & Hnodes & Hprinted & Hticks)]
  end.
  - left. exact Hfail.
  - right. split; [exact Hnil|].
    eexists toArchive, digest, ticks, _.
    split; [reflexivity|]. split; [reflexivity|]. split; [exact Hne|].
    split; [exact Hnodes|]. split; [exact Hprinted | exact Hticks].
Qed.

(** X13: when [main] returns an error the nodes table is the one it
    found and no last statistics line was printed; when it returns [nil],
    parsing and [filepath.Abs] have succeeded, the nodes table is the one
    that a single call of [AddEntry], with the node of a non-empty digest
    and the base name of the list file, has left, whatever error that
    call reported, and the last line printed is the one final statistics
    line. *)
Theorem archiveRun_main_calls_AddEntry_only_on_nil :
  forall (w : World) (sch : Schedule) (parsed : option error)
         (abs : string + error) (comment : string)
         (cache : gmap string EntryCache) (cas : T) (nodes : N)
         (toArchiveArg : string) (m : MainState),
    archiveRun_main w sch parsed abs comment cache cas nodes toArchiveArg
      = Returns m ->
    (ms_err m <> None ->
     ms_nodes m = nodes /\ Forall is_tick (ms_printed m)) /\
    (ms_err m = None ->
     exists toArchive digest ticks s,
       parsed = None /\ abs = inl toArchive /\ digest <> "" /\
       ms_nodes m =
         fst (nodes_AddEntry nodes (mkNode digest comment)
                (path_Base toArchive)) /\
       ms_printed m = (ticks ++ [mkPrinted (progress_values s) true])%list /\
       Forall is_tick ticks).
Proof.
  intros w sch parsed abs comment cache cas nodes toArchiveArg m Hmain.
  destruct (archiveRun_main_outcome _ _ _ _ _ _ _ _ _ _ Hmain)
    as [(Herr & Hnodes & Hticks) | (Hnil & Hrest)].
  - split; [auto|]. intros Hnil. contradiction.
  - split; [intros Herr; contradiction|]. intros _. exact Hrest.
Qed.

(** X14: with any number of arguments other than one, [Run] writes one
    line to the error stream and exits with 1, the nodes table untouched.
    With one argument it ends in a panic exactly when [main] does.
    Otherwise it exits with 0 or 1; with 0 exactly when it wrote nothing
    to the error stream, and then the nodes table is the one that a
    single call of [AddEntry] for a non-empty digest has left, whatever
    error that call reported; with 1 the nodes table is the one it
    found. *)
Theorem archiveRun_Run_exit_code :
  forall (w : World) (sch : Schedule) (appName : string)
         (parsed : option error) (abs : string + error) (comment : string)
         (cache : gmap string EntryCache) (cas : T) (nodes : N)
         (args : list string),
    let run :=
      archiveRun_Run w sch appName parsed abs comment cache cas nodes args in
    (List.length args <> 1%nat ->
     run = inl (mkRunResult 1
                  [appName +:+ ": Must only provide a .toArchive file."
                   +:+ newline] nodes [])) /\
    (forall msg : string,
       run = inr msg <->
       exists arg,
         args = [arg] /\
         archiveRun_main w sch parsed abs comment cache cas nodes arg
           = Crashes msg) /\
    (forall r : RunResult N,
       run = inl r ->
       (rr_code r = 0 \/ rr_code r = 1) /\
       (rr_code r = 0 <-> rr_stderr r = []) /\
       (rr_code r = 1 -> rr_nodes r = nodes) /\
       (rr_code r = 0 ->
        exists arg toArchive digest m,
          args = [arg] /\ abs = inl toArchive /\ digest <> "" /\
          archiveRun_main w sch parsed abs comment cache cas nodes arg
            = Returns m /\
          ms_err m = None /\
          rr_printed r = ms_printed m /\
          rr_nodes r =
            fst (nodes_AddEntry nodes (mkNode digest comment)
                   (path_Base toArchive)))).
Proof.
  intros w sch appName parsed abs comment cache cas nodes args. cbv zeta.
  unfold archiveRun_Run.
  assert (Hmany : forall r : RunResult N,
            r = mkRunResult 1
                  [appName +:+ ": Must only provide a .toArchive file."
                   +:+ newline] nodes [] ->
            (rr_code r = 0 \/ rr_code r = 1) /\
            (rr_code r = 0 <-> rr_stderr r = []) /\
            (rr_code r = 1 -> rr_nodes r = nodes) /\
            (rr_code r = 0 -> False)).
  { intros r' ->. simpl. split; [auto|]. split; [split; discriminate|].
    split; [auto | discriminate]. }
  destruct args as [|arg [|arg2 args]].
  - split; [reflexivity|]. split.
    { intros msg. split; [discriminate|]. intros (a & Ha & _). discriminate. }
    intros r Heq. injection Heq as Heq. symmetry in Heq.
    destruct (Hmany r Heq) as (H1 & H2 & H3 & H4).
    split; [exact H1|]. split; [exact H2|]. split; [exact H3|].
    intros H0. destruct (H4 H0).
  - split; [intros Hlen; now destruct Hlen|].
    destruct (archiveRun_main w sch parsed abs comment cache cas nodes arg)
      as [m|crash] eqn:Hmain.
    + split.
      { intros msg. split.
        - destruct (ms_err m); discriminate.
        - intros (a & Ha & Hcrash). injection Ha as <-. congruence. }
      destruct (archiveRun_main_outcome _ _ _ _ _ _ _ _ _ _ Hmain)
        as [(Herr & Hnodes & _)
           | (Hnil & toArchive & digest & ticks & s & _ & Habs & Hne & Hadd
              & _)].
      * destruct (ms_err m) as [err|]; [|congruence].
        intros r Heq. injection Heq as <-. simpl.
        split; [auto|]. split; [split; discriminate|].
        split; [auto|]. discriminate.
      * rewrite Hnil. intros r Heq. injection Heq as <-. simpl.
        split; [auto|]. split; [split; reflexivity|].
        split; [discriminate|].
        intros _. exists arg, toArchive, digest, m.
        split; [reflexivity|]. split; [exact Habs|]. split; [exact Hne|].
        split; [exact Hmain|]. split; [exact Hnil|].
        split; [reflexivity | exact Hadd].
    + split.
      { intros msg. split.
        - intros Heq. injection Heq as <-. exists arg.
          split; [reflexivity | exact Hmain].
        - intros (a & Ha & Hcrash). injection Ha as <-. congruence. }
      discriminate.
  - split; [reflexivity|]. split.
    { intros msg. split; [discriminate|]. intros (a & Ha & _). discriminate. }
    intros r Heq. injection Heq as Heq. symmetry in Heq.
    destruct (Hmany r Heq) as (H1 & H2 & H3 & H4).
    split; [exact H1|]. split; [exact H2|]. split; [exact H3|].
    intros H0. destruct (H4 H0).
Qed.

End MainFacts.

(** ** More on the mock nodes table *)

Lemma tagPath_inj (a b : string) : tagPath a = tagPath b -> a = b.
Proof. unfold tagPath. intros Heq. now injection Heq. Qed.

(** What [AddEntry] does, given the suffix the loop stops at. *)
Lemma AddEntry_result (now : Time) (entries : gmap string Node) (node : Node)
    (name : string) :
  exists suffix : nat,
    AddEntry now entries node name =
      Some (<[tagPath name := node]>
              (<[nodePath now name suffix := node]> entries), None) /\
    entries !! nodePath now name suffix = None /\
    forall j, (j < suffix)%nat -> is_Some (entries !! nodePath now name j).
Proof.
  destruct (claim_suffix_total now name (S (size entries)) entries 0)
    as [suffix Hsuffix]; [lia|].
  destruct (claim_suffix_first_free _ _ _ _ _ _ Hsuffix)
    as (_ & Hfree & Htaken).
  exists suffix. unfold AddEntry. rewrite Hsuffix.
  split; [reflexivity|]. split; [exact Hfree|].
  intros j Hj. apply Htaken. lia.
Qed.

(** X15: every call of [AddEntry] adds exactly one time-bucketed entry:
    the table grows by one entry when the name already had a tag and by
    two when it had none, as after the first call on an empty table. *)
Theorem AddEntry_grows_by_one_node :
  forall (now : Time) (entries : gmap string Node) (node : Node)
         (name : string),
  exists entries',
    AddEntry now entries node name = Some (entries', None) /\
    size entries' =
      match entries !! tagPath name with
      | Some _ => S (size entries)
      | None => S (S (size entries))
      end /\
    (entries = ∅ -> size entries' = 2%nat).
Proof.
  intros now entries node name.
  destruct (AddEntry_result now entries node name)
    as (suffix & Hadd & Hfree & _).
  eexists. split; [exact Hadd|].
  assert (Hsize :
    size (<[tagPath name := node]>
            (<[nodePath now name suffix := node]> entries)) =
    match entries !! tagPath name with
    | Some _ => S (size entries)
    | None => S (S (size entries))
    end).
  { rewrite map_size_insert.
    rewrite lookup_insert_ne by apply nodePath_not_tagPath.
    rewrite map_size_insert_None by exact Hfree.
    destruct (entries !! tagPath name); reflexivity. }
  split; [exact Hsize|].
  intros ->. rewrite Hsize, lookup_empty, map_size_empty. reflexivity.
Qed.

Lemma last_map_Some (l : list Node) (d : Node) :
  exists x, List.last (List.map Some (d :: l)) None = Some x.
Proof.
  revert d. induction l as [|y l IH]; intros d; [simpl; eauto|].
  destruct (IH y) as [x Hx]. exists x. exact Hx.
Qed.

(** The table after the nodes [done] were added to an empty one. *)
Lemma AddEntry_all_from (now : Time) (name : string) (nodes : list Node) :
  forall (entries : gmap string Node) (done : list Node),
    (forall k node, done !! k = Some node ->
       entries !! nodePath now name k = Some node) ->
    (forall k, (List.length done <= k)%nat ->
       entries !! nodePath now name k = None) ->
    entries !! tagPath name = List.last (List.map Some done) None ->
    size entries =
      (List.length done + if List.length done =? 0 then 0 else 1)%nat ->
    exists entries',
      AddEntry_all now entries nodes name = Some entries' /\
      (forall k node, (done ++ nodes)%list !! k = Some node ->
         entries' !! nodePath now name k = Some node) /\
      (forall k, (List.length (done ++ nodes) <= k)%nat ->
         entries' !! nodePath now name k = None) /\
      entries' !! tagPath name =
        List.last (List.map Some (done ++ nodes)) None /\
      size entries' =
        (List.length (done ++ nodes) +
         if List.length (done ++ nodes) =? 0 then 0 else 1)%nat.
Proof.
  induction nodes as [|node nodes IH];
    intros entries done Htaken Hfree Htag Hsize.
  - exists entries. rewrite app_nil_r. simpl. auto.
  - destruct (AddEntry_result now entries node name)
      as (suffix & Hadd & Hfree' & Htaken').
    assert (Hsuffix : suffix = List.length done).
    { destruct (Nat.lt_trichotomy suffix (List.length done))
        as [Hlt|[Heq|Hgt]]; [|exact Heq|].
      - destruct (lookup_lt_is_Some_2 done suffix Hlt) as [n Hn].
        rewrite (Htaken _ _ Hn) in Hfree'. discriminate.
      - destruct (Htaken' (List.length done) Hgt) as [n Hn].
        rewrite Hfree in Hn by lia. discriminate. }
    subst suffix. simpl AddEntry_all. rewrite Hadd.
    set (claimed := nodePath now name (List.length done)) in *.
    set (entries1 := <[tagPath name := node]> (<[claimed := node]> entries)).
    assert (Hct : claimed <> tagPath name) by apply nodePath_not_tagPath.
    destruct (IH entries1 (done ++ [node])%list)
      as (entries' & Hall & Htaken1 & Hfree1 & Htag1 & Hsize1).
    + intros k n Hk. unfold entries1.
      rewrite lookup_insert_ne by (apply not_eq_sym, nodePath_not_tagPath).
      destruct (decide (k = List.length done)) as [->|Hne].
      * rewrite list_lookup_middle in Hk by reflexivity.
        injection Hk as <-. apply lookup_insert_eq.
      * rewrite lookup_insert_ne
          by (intros Heq; apply nodePath_inj in Heq; congruence).
        apply Htaken. rewrite lookup_app_l in Hk; [exact Hk|].
        apply lookup_lt_Some in Hk. rewrite length_app in Hk.
        simpl in Hk. lia.
    + intros k Hk. rewrite length_app in Hk. simpl in Hk. unfold entries1.
      rewrite lookup_insert_ne by (apply not_eq_sym, nodePath_not_tagPath).
      rewrite lookup_insert_ne
        by (intros Heq; apply nodePath_inj in Heq; lia).
      apply Hfree. lia.
    + unfold entries1. rewrite lookup_insert_eq, List.map_app.
      simpl. now rewrite List.last_last.
    + unfold entries1. rewrite map_size_insert.
      rewrite lookup_insert_ne by exact Hct.
      rewrite map_size_insert_None by (apply Hfree; lia).
      assert (Hlen1 : (List.length (done ++ [node]) =? 0)%nat = false)
        by (rewrite length_app; simpl; apply Nat.eqb_neq; lia).
      rewrite Hlen1, length_app. simpl List.length.
      destruct done as [|d done].
      * simpl in Htag, Hsize. rewrite Htag, Hsize. reflexivity.
      * destruct (last_map_Some done d) as [x Hx].
        rewrite Hx in Htag. rewrite Htag. simpl in Hsize |- *. lia.
    + exists entries'. rewrite <- app_assoc in *. simpl in *. auto.
Qed.

(** X16: nodes added to an empty table one after the other, in one second
    and under one name, are filed in order: the first without suffix, the
    k-th next under [(k)]; nothing else is claimed, the tag holds the last
    of them, and the table has one entry per node plus the tag. *)
Theorem AddEntry_all_files_nodes_in_order :
  forall (now : Time) (name : string) (nodes : list Node),
  exists entries,
    AddEntry_all now ∅ nodes name = Some entries /\
    (forall k node, nodes !! k = Some node ->
       entries !! nodePath now name k = Some node) /\
    (forall k, (List.length nodes <= k)%nat ->
       entries !! nodePath now name k = None) /\
    entries !! tagPath name = List.last (List.map Some nodes) None /\
    size entries =
      (List.length nodes + if List.length nodes =? 0 then 0 else 1)%nat.
Proof.
  intros now name nodes.
  apply (AddEntry_all_from now name nodes ∅ []).
  - intros k node Hk. rewrite lookup_nil in Hk. discriminate.
  - intros k _. apply lookup_empty.
  - apply lookup_empty.
  - rewrite map_size_empty. reflexivity.
Qed.

(** ** The counters *)

Lemma wrap64_add_l (a b : Z) : wrap64 (wrap64 a + b) = wrap64 (a + b).
Proof.
  unfold wrap64. f_equal.
  replace ((a + 2 ^ 63) mod 2 ^ 64 - 2 ^ 63 + b + 2 ^ 63)
    with ((a + 2 ^ 63) mod 2 ^ 64 + b) by lia.
  rewrite Zplus_mod_idemp_l. f_equal. lia.
Qed.

(** X17: [Add] keeps a counter within [int64]; it is the exact sum as
    long as that fits; and two additions give the same counter in either
    order. *)
Theorem syncInt_Add_is_order_independent :
  forall s i j : Z,
    (- 2 ^ 63 <= syncInt_Add s i < 2 ^ 63) /\
    (- 2 ^ 63 <= s + i < 2 ^ 63 -> syncInt_Add s i = s + i) /\
    syncInt_Add (syncInt_Add s i) j = syncInt_Add (syncInt_Add s j) i.
Proof.
  intros s i j. unfold syncInt_Add. split; [|split].
  - unfold wrap64.
    pose proof (Z.mod_pos_bound (s + i + 2 ^ 63) (2 ^ 64) ltac:(lia)). lia.
  - intros Hfit. unfold wrap64. rewrite Z.mod_small by lia. lia.
  - rewrite !wrap64_add_l. f_equal. lia.
Qed.

(** ** Properties of [mockNodesTable.ServeHTTP] *)

Lemma first_with_prefix_none (order : list (string * Node)) (suburl : string) :
  (forall k v, In (k, v) order -> strings_HasPrefix suburl k = false) ->
  first_with_prefix order suburl = None.
Proof.
  induction order as [|[k v] order IH]; intros Hnone; simpl; [reflexivity|].
  rewrite (Hnone k v) by (left; reflexivity).
  apply IH. intros k' v' Hin. apply (Hnone k' v'). right. exact Hin.
Qed.

Lemma first_with_prefix_some (order : list (string * Node)) (suburl : string) :
  forall k v,
    first_with_prefix order suburl = Some (k, v) ->
    In (k, v) order /\ strings_HasPrefix suburl k = true.
Proof.
  induction order as [|[k' v'] order IH]; intros k v; simpl; [discriminate|].
  destruct (strings_HasPrefix suburl k') eqn:Hprefix.
  - intros Heq. injection Heq as <- <-. auto.
  - intros Hfound. destruct (IH k v Hfound). auto.
Qed.

Lemma prefix_skip (k s : string) :
  String.prefix k s = true -> s = k +:+ skip (String.length k) s.
Proof.
  revert s. induction k as [|c k IH]; intros s; [reflexivity|].
  destruct s as [|d s]; simpl; [discriminate|].
  destruct (ascii_dec c d) as [->|]; [|discriminate].
  intros Hprefix.
  change (String d s = String d (k +:+ skip (String.length k) s)).
  f_equal. now apply IH.
Qed.

Lemma listing_nothing (order : list (string * Node)) (suburl : string) :
  (forall k v, In (k, v) order -> strings_HasPrefix k suburl = false) ->
  listing order suburl = [].
Proof.
  induction order as [|[k v] order IH]; intros Hnone; simpl; [reflexivity|].
  rewrite (Hnone k v) by (left; reflexivity).
  apply IH. intros k' v' Hin. apply (Hnone k' v'). right. exact Hin.
Qed.

Lemma listing_everything (order : list (string * Node)) :
  listing order "" =
  List.map (fun kv => first_after (fst kv) "/") order.
Proof.
  induction order as [|[k v] order IH]; simpl; [reflexivity|].
  unfold strings_HasPrefix.
  assert (Hprefix : String.prefix "" k = true) by (destruct k; reflexivity).
  rewrite Hprefix. change (skip (String.length "") k) with k.
  now rewrite IH.
Qed.

(** X18: a path that does not end in a slash and that no key of the table
    starts is answered with a redirect to its last element plus a slash,
    not with 404: the misbehaviour on [/foo] the test notes. *)
Theorem ServeHTTP_redirects_unknown_path_without_slash :
  forall (order : list (string * Node)) (urlPath suburl : string),
    slice_from urlPath 1 = Some suburl ->
    strings_HasSuffix urlPath "/" = false ->
    (forall k v, In (k, v) order -> strings_HasPrefix suburl k = false) ->
    ServeHTTP order urlPath = Redirect (path_Base urlPath +:+ "/").
Proof.
  intros order urlPath suburl Hslice Hsuffix Hnone. unfold ServeHTTP.
  rewrite Hslice, (first_with_prefix_none order suburl Hnone), Hsuffix.
  destruct (negb (String.eqb suburl "")); reflexivity.
Qed.

(** X19: a path that ends in a slash, that no key starts and that starts
    no key, is answered with 404. *)
Theorem ServeHTTP_unknown_directory_is_not_found :
  forall (order : list (string * Node)) (urlPath suburl : string),
    slice_from urlPath 1 = Some suburl ->
    strings_HasSuffix urlPath "/" = true ->
    (forall k v, In (k, v) order ->
       strings_HasPrefix suburl k = false /\
       strings_HasPrefix k suburl = false) ->
    ServeHTTP order urlPath = NotFound.
Proof.
  intros order urlPath suburl Hslice Hsuffix Hnone. unfold ServeHTTP.
  rewrite Hslice, Hsuffix.
  rewrite (first_with_prefix_none order suburl)
    by (intros k v Hin; apply (Hnone k v Hin)).
  rewrite (listing_nothing order suburl)
    by (intros k v Hin; apply (Hnone k v Hin)).
  destruct (negb (String.eqb suburl "")); reflexivity.
Qed.

(** X20: the root path lists one item for each entry of the table, in
    the order of the [range], each the key up to and with its first
    slash, so a child shared by several entries is listed once for each;
    an empty table gives 404. *)
Theorem ServeHTTP_root_lists_one_item_per_entry :
  forall (entries : gmap string Node) (order : list (string * Node)),
    order ≡ₚ map_to_list entries ->
    (entries = ∅ -> ServeHTTP order "/" = NotFound) /\
    (entries <> ∅ ->
     ServeHTTP order "/" =
       DirList (List.map (fun kv => first_after (fst kv) "/") order) /\
     List.length (List.map (fun kv => first_after (fst kv) "/") order)
       = size entries).
Proof.
  intros entries order Horder.
  assert (Hlen : List.length order = size entries).
  { rewrite (Permutation_length Horder). apply length_map_to_list. }
  assert (Hslice : slice_from "/" 1 = Some "") by reflexivity.
  assert (Hsuffix : strings_HasSuffix "/" "/" = true) by reflexivity.
  unfold ServeHTTP. rewrite Hslice, Hsuffix.
  change (negb (String.eqb "" "")) with false. cbv iota. simpl negb.
  cbv iota. rewrite listing_everything, List.length_map, Hlen.
  split.
  - intros ->. rewrite map_size_empty. reflexivity.
  - intros Hne. split; [|reflexivity].
    destruct (size entries) eqn:Hsize; [|reflexivity].
    apply map_size_empty_iff in Hsize. contradiction.
Qed.

(** X21: a path that some key of the table starts never reaches the
    listing: it is redirected, when the key the [range] comes to first is
    all of it, or handed on, with the rest of the path, to the entry of
    the node under that key. *)
Theorem ServeHTTP_under_a_node_is_served_by_a_node :
  forall (order : list (string * Node)) (urlPath suburl k : string)
         (v : Node),
    slice_from urlPath 1 = Some suburl ->
    suburl <> "" ->
    In (k, v) order ->
    strings_HasPrefix suburl k = true ->
    ServeHTTP order urlPath = Redirect (path_Base urlPath +:+ "/") \/
    exists k' v' rest,
      In (k', v') order /\ suburl = k' +:+ rest /\ rest <> "" /\
      ServeHTTP order urlPath = ServeNode v' rest.
Proof.
  intros order urlPath suburl k v Hslice Hne Hin Hprefix. unfold ServeHTTP.
  rewrite Hslice.
  assert (Heqb : String.eqb suburl "" = false) by now apply String.eqb_neq.
  rewrite Heqb. simpl negb. cbv iota.
  destruct (first_with_prefix order suburl) as [[k' v']|] eqn:Hfirst.
  - apply first_with_prefix_some in Hfirst as [Hin' Hprefix'].
    destruct (String.eqb_spec (skip (String.length k') suburl) "") as [Hrest|Hrest].
    + left. reflexivity.
    + right. exists k', v', (skip (String.length k') suburl).
      split; [exact Hin'|]. split; [now apply prefix_skip|].
      split; [exact Hrest | reflexivity].
  - exfalso. clear -Hin Hprefix Hfirst.
    induction order as [|[k1 v1] order IH]; [destruct Hin|].
    simpl in Hfirst. destruct Hin as [Heq|Hin].
    + injection Heq as -> ->. rewrite Hprefix in Hfirst. discriminate.
    + destruct (strings_HasPrefix suburl k1); [discriminate|]. auto.
Qed.

(** ** The further theorems at work on the example *)

(** X2 on the manifest that holds [a], when [b] is added. *)
Lemma makeEntry_keeps_other_entries_witness :
  find_entry root_with_a ["a"] = Some (mkEntry "sha1-of:alpha" 5 ∅) /\
  exists e',
    find_entry (makeEntry (example_world "/" true) root_with_a item_b) ["a"]
      = Some e' /\
    e_Sha1 e' = "sha1-of:alpha" /\ e_Size e' = 5.
Proof.
  split; [reflexivity|].
  apply (makeEntry_keeps_other_entries (example_world "/" true) root_with_a
           item_b ["a"] (mkEntry "sha1-of:alpha" 5 ∅)).
  - intros Heq. vm_compute in Heq. discriminate Heq.
  - reflexivity.
Defined.

(** X3 on the items [a] and [b], archived into an empty table. *)
Lemma archiveInputs_manifest_holds_every_item_witness :
  exists e,
    find_entry
      (ar_root (snd (archiveInputs (CT := memCasTable)
                       (example_world "/" true) [] ∅ Stats_zero
                       [item_a; item_b])))
      (item_elems (example_world "/" true) item_a) = Some e /\
    e_Sha1 e = a_sha1 item_a /\ e_Size e = a_size item_a.
Proof.
  apply (archiveInputs_manifest_holds_every_item (CT := memCasTable)
           (example_world "/" true) [] ∅ Stats_zero [item_a; item_b]
           _ [] [item_b] item_a).
  - vm_compute. reflexivity.
  - reflexivity.
  - constructor; [|constructor].
    intros Heq. vm_compute in Heq. discriminate Heq.
Defined.

(** X4 on the same run: two items and the manifest, three counted. *)
Lemma archiveInputs_counts_every_item_once_witness :
  exists a k e : nat,
    (a + k + e = 3)%nat /\
    nbArchived
      (ar_stats (snd (archiveInputs (CT := memCasTable)
                        (example_world "/" true) [] ∅ Stats_zero
                        [item_a; item_b]))) = bump a 0 /\
    nbNotArchived
      (ar_stats (snd (archiveInputs (CT := memCasTable)
                        (example_world "/" true) [] ∅ Stats_zero
                        [item_a; item_b]))) = bump k 0 /\
    errors
      (ar_stats (snd (archiveInputs (CT := memCasTable)
                        (example_world "/" true) [] ∅ Stats_zero
                        [item_a; item_b]))) = bump e 0.
Proof.
  apply (archiveInputs_counts_every_item_once (CT := memCasTable)
           (example_world "/" true) [] ∅ Stats_zero [item_a; item_b]).
  vm_compute. reflexivity.
Defined.

(** X5 on the same run: one digest is sent. *)
Lemma archiveInputs_sends_one_digest_or_nothing_witness :
  exists d,
    ar_out (snd (archiveInputs (CT := memCasTable) (example_world "/" true)
                   [] ∅ Stats_zero [item_a; item_b])) = [d].
Proof.
  pose proof (proj1 (archiveInputs_sends_one_digest_or_nothing
                       (CT := memCasTable) (NT := mockNodesTable example_time)
                       (example_world "/" true) [] ∅ Stats_zero
                       [item_a; item_b])) as Hsent.
  destruct Hsent as (d & Hd & _); [vm_compute; reflexivity|].
  exists d. exact Hd.
Defined.

(** X7 on [/d/a] with the record of an earlier run. *)
Lemma hashInputs_fresh_cache_reads_nothing_witness :
  hs_log (snd (hashInputs (example_world "/" true) []
                 {["/d/a" := cached_a]} Stats_zero [file_a_item])) = [].
Proof.
  apply (hashInputs_fresh_cache_reads_nothing (example_world "/" true) []
           {["/d/a" := cached_a]} Stats_zero [file_a_item]).
  - constructor.
  - constructor; [reflexivity | constructor].
  - constructor; [split; reflexivity | constructor].
Defined.

(** X8 on [/d/a], first with an empty cache, then with the cache that
    run left. *)
Lemma hashInputs_second_run_reads_nothing_witness :
  hs_log (snd (hashInputs (example_world "/" true) []
                 (hs_cache (snd (hashInputs (example_world "/" true) [] ∅
                                   Stats_zero [file_a_item])))
                 Stats_zero [file_a_item])) = [].
Proof.
  apply (hashInputs_second_run_reads_nothing (example_world "/" true) [] []
           ∅ Stats_zero Stats_zero [file_a_item]).
  - constructor.
  - constructor.
  - constructor; [reflexivity | constructor].
  - constructor; [exists "alpha"; reflexivity | constructor].
  - intros i j [<-|[]] [<-|[]] _. split; reflexivity.
Defined.

(** X9 on an empty file dated at the epoch. *)
Lemma hash_item_empty_epoch_file_has_no_digest_witness :
  hs_out (after (hash_item (example_world "/" true) epoch_item hash_start))
    = [mkItemToArchive "/e" "e" "" 0].
Proof.
  apply (hash_item_empty_epoch_file_has_no_digest (example_world "/" true)
           epoch_item hash_start); reflexivity.
Defined.

(** X10 on the directory [/d]. *)
Lemma enumerateInputs_sends_at_most_one_per_input_witness :
  found (en_stats (snd (enumerateInputs (example_world "/" true) []
                          Stats_zero ["/d"]))) = bump 1 0.
Proof.
  apply (proj2 (enumerateInputs_sends_at_most_one_per_input
                  (example_world "/" true) [] Stats_zero ["/d"])).
  intros msg. vm_compute. discriminate.
Defined.

(** X12 on a relative path. *)
Lemma cleanupList_makes_paths_absolute_witness :
  path_IsAbs "/home/u" = true /\
  Forall (fun p => path_IsAbs p = true)
    (cleanupList (example_world "/" true) "/home/u" ["docs/a.txt"]).
Proof.
  split; [reflexivity|].
  apply (proj2 (cleanupList_makes_paths_absolute (example_world "/" true)
                  "/home/u" ["docs/a.txt"])).
  reflexivity.
Defined.

Lemma example_main_returns : example_main = Returns example_main_state.
Proof. vm_compute. reflexivity. Qed.

(** X13 on the run of the example, which returns [nil]. *)
Lemma archiveRun_main_calls_AddEntry_only_on_nil_witness :
  ms_err example_main_state = None /\
  exists toArchive digest ticks s,
    None = None (A := error) /\ inl "/t/list" = inl (B := error) toArchive /\
    digest <> "" /\
    ms_nodes example_main_state =
      fst (nodes_AddEntry (NodesTable := mockNodesTable example_time) ∅
             (mkNode digest "nightly") (path_Base toArchive)) /\
    ms_printed example_main_state =
      (ticks ++ [mkPrinted (progress_values s) true])%list /\
    Forall is_tick ticks.
Proof.
  split; [reflexivity|].
  apply (proj2 (archiveRun_main_calls_AddEntry_only_on_nil
                  (CT := memCasTable) (NT := mockNodesTable example_time)
                  (example_world "/" true) no_interrupt None (inl "/t/list")
                  "nightly" ∅ ∅ ∅ "list" example_main_state
                  example_main_returns)).
  reflexivity.
Defined.

(** X14 on the run of the example with its one argument: exit code 0,
    nothing on the error stream, and the table as [AddEntry] left it. *)
Lemma archiveRun_Run_exit_code_witness :
  let run :=
    archiveRun_Run (CT := memCasTable) (NT := mockNodesTable example_time)
      (example_world "/" true) no_interrupt "dumbcas" None (inl "/t/list")
      "nightly" ∅ ∅ ∅ ["list"] in
  let r :=
    mkRunResult 0 [] (ms_nodes example_main_state)
      (ms_printed example_main_state) in
  run = inl r /\
  rr_code r = 0 /\
  exists arg toArchive digest m,
    ["list"] = [arg] /\ inl "/t/list" = inl (B := error) toArchive /\
    digest <> "" /\
    archiveRun_main (CT := memCasTable) (NT := mockNodesTable example_time)
      (example_world "/" true) no_interrupt None (inl "/t/list") "nightly"
      ∅ ∅ ∅ arg = Returns m /\
    ms_err m = None /\
    rr_printed r = ms_printed m /\
    rr_nodes r =
      fst (nodes_AddEntry (NodesTable := mockNodesTable example_time) ∅
             (mkNode digest "nightly") (path_Base toArchive)).
Proof.
  cbv zeta.
  assert (Hrun :
    archiveRun_Run (CT := memCasTable) (NT := mockNodesTable example_time)
      (example_world "/" true) no_interrupt "dumbcas" None (inl "/t/list")
      "nightly" ∅ ∅ ∅ ["list"]
    = inl (mkRunResult 0 [] (ms_nodes example_main_state)
             (ms_printed example_main_state))).
  { vm_compute. reflexivity. }
  split; [exact Hrun|]. split; [reflexivity|].
  exact (proj2 (proj2 (proj2 (proj2 (proj2
    (archiveRun_Run_exit_code (CT := memCasTable)
       (NT := mockNodesTable example_time) (example_world "/" true)
       no_interrupt "dumbcas" None (inl "/t/list") "nightly" ∅ ∅ ∅ ["list"]))
    _ Hrun))) eq_refl).
Defined.

(** X15 on the empty table. *)
Lemma AddEntry_grows_by_one_node_witness :
  exists entries',
    AddEntry example_time ∅ example_node "list" = Some (entries', None) /\
    size entries' = 2%nat.
Proof.
  destruct (AddEntry_grows_by_one_node example_time ∅ example_node "list")
    as (entries' & Hadd & _ & Hsize).
  exists entries'. split; [exact Hadd | exact (Hsize eq_refl)].
Defined.

(** X17 on small numbers. *)
Lemma syncInt_Add_is_order_independent_witness : syncInt_Add 2 3 = 5.
Proof.
  apply (proj1 (proj2 (syncInt_Add_is_order_independent 2 3 0))). lia.
Defined.

(** X18 on [/foo], the request the test leaves out. *)
Lemma ServeHTTP_redirects_unknown_path_without_slash_witness :
  ServeHTTP example_order "/foo" = Redirect "foo/".
Proof.
  apply (ServeHTTP_redirects_unknown_path_without_slash example_order
           "/foo" "foo"); [reflexivity | reflexivity |].
  intros k v [Heq|[]]. injection Heq as <- _. reflexivity.
Defined.

(** X19 on [/foo/], as the test asks. *)
Lemma ServeHTTP_unknown_directory_is_not_found_witness :
  ServeHTTP example_order "/foo/" = NotFound.
Proof.
  apply (ServeHTTP_unknown_directory_is_not_found example_order
           "/foo/" "foo/"); [reflexivity | reflexivity |].
  intros k v [Heq|[]]. injection Heq as <- _. split; reflexivity.
Defined.

(** X20 on a table with one tag. *)
Lemma ServeHTTP_root_lists_one_item_per_entry_witness :
  ServeHTTP (map_to_list ({["tags/list" := example_node]} : gmap string Node))
    "/" =
  DirList
    (List.map (fun kv => first_after (fst kv) "/")
       (map_to_list ({["tags/list" := example_node]} : gmap string Node))).
Proof.
  apply (proj2 (ServeHTTP_root_lists_one_item_per_entry
                  {["tags/list" := example_node]}
                  (map_to_list
                     ({["tags/list" := example_node]} : gmap string Node))
                  (Permutation_refl _))).
  intros Heq. apply (f_equal (fun m => m !! "tags/list")) in Heq.
  vm_compute in Heq. discriminate Heq.
Defined.

(** X21 on a path under the tag. *)
Lemma ServeHTTP_under_a_node_is_served_by_a_node_witness :
  ServeHTTP example_order "/tags/list/x"
    = Redirect (path_Base "/tags/list/x" +:+ "/") \/
  exists k' v' rest,
    In (k', v') example_order /\ "tags/list/x" = k' +:+ rest /\
    rest <> "" /\
    ServeHTTP example_order "/tags/list/x" = ServeNode v' rest.
Proof.
  apply (ServeHTTP_under_a_node_is_served_by_a_node example_order
           "/tags/list/x" "tags/list/x" "tags/list" example_node).
  - reflexivity.
  - discriminate.
  - left. reflexivity.
  - reflexivity.
Defined.

(** X22 on the list file and the missing file it names. *)
Lemma enumerateInputs_sends_every_file_input_witness :
  List.map fullPath
    (en_out (snd (enumerateInputs (example_world "/" true) [true]
                    Stats_zero ["/t/missing"; "/t/list"]))) = ["/t/list"] /\
  errors
    (en_stats (snd (enumerateInputs (example_world "/" true) [true]
                      Stats_zero ["/t/missing"; "/t/list"]))) = 1.
Proof.
  destruct (enumerateInputs_sends_every_file_input (example_world "/" true)
              [true] Stats_zero ["/t/missing"; "/t/list"])
    as (_ & Hout & _ & Herr).
  - intros input stat [<-|[<-|[]]] Hstat; vm_compute in Hstat;
      [discriminate Hstat|]. injection Hstat as <-. reflexivity.
  - rewrite Hout, Herr. split; reflexivity.
Defined.
